(** * hzip: Huffman compression and decompression (src/hzip.py)

  A shallow embedding of [hzip.py] and the properties of its container
  format.  Python values are modelled as follows:

  - a [bytes] object is a [list byte]; iterating over it yields its bytes;
  - a [str] holding a bit-string is a [list ascii] (the characters "0"
    and "1");
  - a Python [int] is a [Z]; list positions and lengths are [nat];
  - [Counter] and [dict.items()] are association lists in insertion order,
    the code table is a finite map from bytes to bit-strings;
  - a computation that may raise returns an [option]: [None] stands for
    a raised exception, which [compress] and [decompress] both catch. *)

From Stdlib Require Import ZArith Lia Ascii.
From Stdlib.Strings Require Import Byte.
From stdpp Require Import base list gmap strings.
From Equations Require Import Equations.

Open Scope Z_scope.

#[global] Instance byte_eq_dec : EqDecision byte.
Proof. exact Byte.byte_eq_dec. Defined.

#[global] Instance byte_countable : Countable byte :=
inj_countable Byte.to_N Byte.of_N Byte.of_to_N.

(** A bit-string, as the Python [str] of "0" and "1" characters. *)
Abbreviation bits := (list ascii).

Definition c0 : ascii := "0"%char.
Definition c1 : ascii := "1"%char.

(** ** Python list primitives that can raise [IndexError] *)

Section PyList.
Context {A : Type}.

(** [l[i] = x]: raises when [i] is out of range. *)
Definition setitem (l : list A) (i : nat) (x : A) : option (list A) :=
  if decide (i < length l)%nat then Some (<[i:=x]> l) else None.

(** [l.pop()]: removes and returns the last item, raises on [[]]. *)
Definition pop (l : list A) : option (A * list A) :=
  match last l with
  | Some x => Some (x, removelast l)
  | None => None
  end.
End PyList.

(** ** [heapq]: the binary heap of the Python standard library

  [heappush] and [heappop] with their helpers [_siftdown] and [_siftup],
  over any item type with a [<] ([__lt__]). *)

Module heapq.
Section Heap.
Context {A : Type} (lt : A -> A -> bool).

(** [parentpos = (pos - 1) >> 1] *)
Definition parentpos (pos : nat) : nat := ((pos - 1) / 2)%nat.

(** The [while pos > startpos] loop of [_siftdown]. *)
Equations siftdown_loop (heap : list A) (startpos pos : nat) (newitem : A)
  : option (list A) by wf pos Nat.lt :=
siftdown_loop heap startpos pos newitem :=
  match decide (startpos < pos)%nat with
  | left _ =>
      match heap !! parentpos pos with
      | Some parent =>
          if lt newitem parent then
            match setitem heap pos parent with
            | Some heap => siftdown_loop heap startpos (parentpos pos) newitem
            | None => None
            end
          else setitem heap pos newitem
      | None => None
      end
  | right _ => setitem heap pos newitem
  end.
Next Obligation.
  intros. unfold parentpos. apply Nat.Div0.div_lt_upper_bound; lia.
Qed.

Definition _siftdown (heap : list A) (startpos pos : nat)
  : option (list A) :=
  newitem ← heap !! pos;
  siftdown_loop heap startpos pos newitem.

(** The [while childpos < endpos] loop of [_siftup], entered with
  [childpos = 2*pos + 1]; it returns the heap and the position where the
  hole ended up. *)
Equations siftup_loop (heap : list A) (endpos pos : nat)
  : option (list A * nat) by wf (endpos - pos)%nat Nat.lt :=
siftup_loop heap endpos pos :=
  let childpos := (2 * pos + 1)%nat in
  match decide (childpos < endpos)%nat with
  | left _ =>
      let rightpos := (childpos + 1)%nat in
      match decide (rightpos < endpos)%nat with
      | left _ =>
          match heap !! childpos, heap !! rightpos with
          | Some c, Some r =>
              if negb (lt c r) then
                match setitem heap pos r with
                | Some heap => siftup_loop heap endpos rightpos
                | None => None
                end
              else
                match setitem heap pos c with
                | Some heap => siftup_loop heap endpos childpos
                | None => None
                end
          | _, _ => None
          end
      | right _ =>
          match heap !! childpos with
          | Some c =>
              match setitem heap pos c with
              | Some heap => siftup_loop heap endpos childpos
              | None => None
              end
          | None => None
          end
      end
  | right _ => Some (heap, pos)
  end.
Next Obligation. intros. lia. Qed.
Next Obligation. intros. lia. Qed.
Next Obligation. intros. lia. Qed.

Definition _siftup (heap : list A) (pos : nat) : option (list A) :=
  let endpos := length heap in
  let startpos := pos in
  newitem ← heap !! pos;
  '(heap, pos) ← siftup_loop heap endpos pos;
  heap ← setitem heap pos newitem;
  _siftdown heap startpos pos.

Definition heappush (heap : list A) (item : A) : option (list A) :=
  let heap := heap ++ [item] in
  _siftdown heap 0 (length heap - 1).

Definition heappop (heap : list A) : option (A * list A) :=
  '(lastelt, heap) ← pop heap;
  match heap with
  | [] => Some (lastelt, heap)
  | _ :: _ =>
      returnitem ← heap !! 0%nat;
      heap ← setitem heap 0 lastelt;
      heap ← _siftup heap 0;
      Some (returnitem, heap)
  end.
End Heap.
End heapq.

(** ** The tree *)

(** [class Node]: [char] is [None] on internal nodes; [left] and [right]
  are [None] when the child is absent.  The value on a leaf is a byte, an
  [int] in [0, 255]: [compress] takes it from the [bytes] it read, so the
  trees it builds and pickles have no other leaves.  A tree with any
  other leaf value, which only a foreign pickle can give, is outside this
  type. *)
Inductive Node : Type :=
mkNode (char : option byte) (freq : Z) (left right : option Node).

Definition char (n : Node) : option byte := let (c, _, _, _) := n in c.
Definition freq (n : Node) : Z := let (_, f, _, _) := n in f.
Definition left (n : Node) : option Node := let (_, _, l, _) := n in l.
Definition right (n : Node) : option Node := let (_, _, _, r) := n in r.

(** [Node.__lt__] *)
Definition Node_lt (self other : Node) : bool := freq self <? freq other.

(** ** Facts about [heapq]: no [IndexError], and the items are kept *)

Section ListFacts.
Context {A : Type}.
Implicit Types (l : list A) (x y : A) (i j : nat).

Lemma setitem_Some l i x :
  (i < length l)%nat -> setitem l i x = Some (<[i:=x]> l).
Proof. intros Hi. unfold setitem. by rewrite decide_True. Qed.

Lemma setitem_inv l i x l' :
  setitem l i x = Some l' -> (i < length l)%nat /\ l' = <[i:=x]> l.
Proof. unfold setitem. case_decide; naive_solver. Qed.

Lemma insert_cons_Permutation l j x y :
  l !! j = Some y -> y :: <[j:=x]> l ≡ₚ x :: l.
Proof.
  revert j. induction l as [|a l IH]; intros [|j] Hj; simplify_eq/=.
  - constructor.
  - transitivity (a :: y :: <[j:=x]> l); [by constructor|].
    transitivity (a :: x :: l); [|by constructor].
    by rewrite (IH j Hj).
Qed.

(** Moving the item at [j] into position [i] and filling [j] with [x] is,
    up to order, filling [i] with [x]. *)
Lemma insert_move_Permutation l i j x y :
  l !! j = Some y -> i ≠ j -> (i < length l)%nat ->
  <[j:=x]> (<[i:=y]> l) ≡ₚ <[i:=x]> l.
Proof.
  revert i j. induction l as [|a l IH]; intros [|i] [|j] Hj Hij Hi;
    simplify_eq/=; try lia.
  - by apply insert_cons_Permutation.
  - destruct (lookup_lt_is_Some_2 l i) as [z Hz]; [lia|].
    apply (Permutation_cons_inv (a:=z)).
    transitivity (x :: z :: <[i:=y]> l); [constructor|].
    transitivity (y :: z :: <[i:=x]> l); [|constructor].
    rewrite (insert_cons_Permutation l i y z Hz).
    rewrite (insert_cons_Permutation l i x z Hz). constructor.
  - f_equiv. apply IH; auto with lia.
Qed.

Lemma pop_Some l :
  l ≠ [] -> exists x l', pop l = Some (x, l') /\ l = l' ++ [x].
Proof.
  intros Hl. destruct (exists_last Hl) as (l' & x & ->).
  exists x, l'. unfold pop. by rewrite last_snoc, removelast_last.
Qed.

Lemma pop_inv l x l' : pop l = Some (x, l') -> l = l' ++ [x].
Proof.
  intros Hp. destruct (decide (l = [])) as [->|Hl]; [done|].
  destruct (pop_Some l Hl) as (x' & l'' & Hp' & ->). congruence.
Qed.
End ListFacts.

Section HeapFacts.
Context {A : Type} (lt : A -> A -> bool).
Implicit Types (heap : list A) (x item : A).

Lemma parent_lt_pos (pos : nat) :
  (0 < pos)%nat -> (heapq.parentpos pos < pos)%nat.
Proof.
  intros. unfold heapq.parentpos. apply Nat.Div0.div_lt_upper_bound; lia.
Qed.

Lemma siftdown_loop_Permutation heap startpos pos newitem :
  (pos < length heap)%nat ->
  exists heap', heapq.siftdown_loop lt heap startpos pos newitem = Some heap'
    /\ heap' ≡ₚ <[pos:=newitem]> heap.
Proof.
  revert heap. induction (lt_wf pos) as [pos _ IH]. intros heap Hpos.
  rewrite heapq.siftdown_loop_equation_1.
  destruct (decide (startpos < pos)%nat) as [Hs|Hs].
  - assert (Hp : (heapq.parentpos pos < pos)%nat) by (apply parent_lt_pos; lia).
    destruct (lookup_lt_is_Some_2 heap (heapq.parentpos pos)) as [parent Hpar];
      [lia|].
    rewrite Hpar. destruct (lt newitem parent).
    + rewrite (setitem_Some heap pos parent Hpos).
      destruct (IH _ Hp (<[pos:=parent]> heap)) as (heap' & -> & Hperm).
      { rewrite length_insert. lia. }
      eexists; split; [done|]. rewrite Hperm.
      apply insert_move_Permutation; auto with lia.
    + rewrite setitem_Some by done. eauto.
  - rewrite setitem_Some by done. eauto.
Qed.

Lemma _siftdown_Permutation heap startpos pos :
  (pos < length heap)%nat ->
  exists heap', heapq._siftdown lt heap startpos pos = Some heap'
    /\ heap' ≡ₚ heap.
Proof.
  intros Hpos. unfold heapq._siftdown.
  destruct (lookup_lt_is_Some_2 heap pos Hpos) as [newitem Hn].
  rewrite Hn. simpl.
  destruct (siftdown_loop_Permutation heap startpos pos newitem Hpos)
    as (heap' & -> & Hperm).
  eexists; split; [done|]. by rewrite Hperm, list_insert_id.
Qed.

Lemma siftup_loop_Permutation heap endpos pos :
  endpos = length heap -> (pos < endpos)%nat ->
  exists heap' pos', heapq.siftup_loop lt heap endpos pos = Some (heap', pos')
    /\ (pos' < length heap')%nat
    /\ forall x, <[pos':=x]> heap' ≡ₚ <[pos:=x]> heap.
Proof.
  remember (endpos - pos)%nat as m eqn:Hm. revert heap pos Hm.
  induction (lt_wf m) as [m _ IH]. intros heap pos -> Hend Hpos.
  assert (Hstep : forall c child, heap !! child = Some c ->
    (pos < child)%nat -> (child < endpos)%nat ->
    exists heap' pos',
      match setitem heap pos c with
      | Some heap => heapq.siftup_loop lt heap endpos child
      | None => None
      end = Some (heap', pos')
      /\ (pos' < length heap')%nat
      /\ forall x, <[pos':=x]> heap' ≡ₚ <[pos:=x]> heap).
  { intros c child Hc Hlt Hchild. rewrite setitem_Some by lia.
    destruct (IH (endpos - child)%nat ltac:(lia) (<[pos:=c]> heap) child)
      as (heap' & pos' & -> & Hlen & Hperm);
      [done|by rewrite length_insert|done|].
    exists heap', pos'. split_and!; [done..|].
    intros x. rewrite Hperm. apply insert_move_Permutation; auto with lia. }
  rewrite heapq.siftup_loop_equation_1. cbv zeta.
  destruct (decide (2 * pos + 1 < endpos)%nat) as [Hc|Hc].
  - destruct (lookup_lt_is_Some_2 heap (2 * pos + 1)) as [c Hlc]; [lia|].
    destruct (decide (2 * pos + 1 + 1 < endpos)%nat) as [Hr|Hr].
    + destruct (lookup_lt_is_Some_2 heap (2 * pos + 1 + 1)) as [r Hlr]; [lia|].
      rewrite Hlc, Hlr. destruct (negb (lt c r)).
      * apply Hstep; auto with lia.
      * apply Hstep; auto with lia.
    + rewrite Hlc. apply Hstep; auto with lia.
  - exists heap, pos. split_and!; [done|lia|done].
Qed.

Lemma _siftup_Permutation heap pos :
  (pos < length heap)%nat ->
  exists heap', heapq._siftup lt heap pos = Some heap' /\ heap' ≡ₚ heap.
Proof.
  intros Hpos. unfold heapq._siftup.
  destruct (lookup_lt_is_Some_2 heap pos Hpos) as [newitem Hn].
  rewrite Hn. simpl.
  destruct (siftup_loop_Permutation heap (length heap) pos eq_refl Hpos)
    as (heap1 & pos1 & -> & Hlen & Hperm). simpl.
  rewrite setitem_Some by done. simpl.
  destruct (_siftdown_Permutation (<[pos1:=newitem]> heap1) pos pos1)
    as (heap2 & -> & Hperm2); [by rewrite length_insert|].
  eexists; split; [done|].
  by rewrite Hperm2, Hperm, list_insert_id.
Qed.

(** [heappush] never raises and adds exactly the pushed item. *)
Lemma heappush_Permutation heap item :
  exists heap', heapq.heappush lt heap item = Some heap'
    /\ heap' ≡ₚ item :: heap.
Proof.
  unfold heapq.heappush.
  destruct (_siftdown_Permutation (heap ++ [item]) 0
              (length (heap ++ [item]) - 1)) as (heap' & -> & Hperm).
  { rewrite length_app. simpl. lia. }
  eexists; split; [done|]. by rewrite Hperm, Permutation_app_comm.
Qed.

(** [heappop] on a non-empty heap never raises and removes exactly the
  returned item. *)
Lemma heappop_Permutation heap :
  heap ≠ [] ->
  exists x heap', heapq.heappop lt heap = Some (x, heap')
    /\ heap ≡ₚ x :: heap'.
Proof.
  intros Hne. unfold heapq.heappop.
  destruct (pop_Some heap Hne) as (lastelt & heap1 & -> & ->). simpl.
  destruct heap1 as [|returnitem heap1]; [by eexists _, _|].
  change ((returnitem :: heap1) !! 0%nat) with (Some returnitem). simpl.
  destruct (_siftup_Permutation (lastelt :: heap1) 0) as (heap2 & -> & Hperm);
    [simpl; lia|]. simpl.
  eexists _, _; split; [done|].
  rewrite Hperm. rewrite <-Permutation_middle. by rewrite (comm (++)).
Qed.

Lemma heappush_inv heap item heap' :
  heapq.heappush lt heap item = Some heap' -> heap' ≡ₚ item :: heap.
Proof.
  intros H. destruct (heappush_Permutation heap item) as (? & ? & ?).
  congruence.
Qed.

Lemma heappop_inv heap x heap' :
  heapq.heappop lt heap = Some (x, heap') -> heap ≡ₚ x :: heap'.
Proof.
  intros H. destruct (decide (heap = [])) as [->|Hne]; [done|].
  destruct (heappop_Permutation heap Hne) as (? & ? & ? & ?). congruence.
Qed.
End HeapFacts.

(** ** [HuffmanCoding]: frequency table and tree construction *)

(** One step of [Counter(data)]: count [c] once more; a new key goes to
  the end, as in a Python [dict]. *)
Fixpoint counter_add (c : byte) (d : list (byte * Z)) : list (byte * Z) :=
  match d with
  | [] => [(c, 1)]
  | (k, v) :: d' =>
      if decide (k = c) then (k, v + 1) :: d' else (k, v) :: counter_add c d'
  end.

Definition Counter (data : list byte) : list (byte * Z) :=
  foldl (fun d c => counter_add c d) [] data.

Definition _build_frequency_table (data : list byte) : list (byte * Z) :=
  Counter data.

(** [for char, freq in freq_table.items(): heappush(heap, Node(char, freq))] *)
Fixpoint push_leaves (items : list (byte * Z)) (heap : list Node)
  : option (list Node) :=
  match items with
  | [] => Some heap
  | (char, freq) :: items =>
      heap ← heapq.heappush Node_lt heap (mkNode (Some char) freq None None);
      push_leaves items heap
  end.

Definition inspect {A : Type} (a : A) : {b : A | a = b} := exist _ a eq_refl.

(** [while len(heap) > 1: ...] followed by [return heap[0]]. *)
Equations merge_loop (heap : list Node) : option Node
  by wf (length heap) Nat.lt :=
merge_loop heap with decide (1 < length heap)%nat := {
  | Specif.left _ with inspect (heapq.heappop Node_lt heap) := {
      | exist _ (Some (left, heap1)) _
          with inspect (heapq.heappop Node_lt heap1) := {
          | exist _ (Some (right, heap2)) _
              with inspect (heapq.heappush Node_lt heap2
                     (mkNode None (freq left + freq right)
                        (Some left) (Some right))) := {
              | exist _ (Some heap3) _ := merge_loop heap3
              | exist _ None _ := None }
          | exist _ None _ := None }
      | exist _ None _ := None }
  | Specif.right _ := heap !! 0%nat }.
Next Obligation.
  intros.
  match goal with
  | H1 : heapq.heappop _ heap = _, H2 : heapq.heappop _ heap1 = _,
    H3 : heapq.heappush _ heap2 _ = _ |- _ =>
      apply heappop_inv, Permutation_length in H1;
      apply heappop_inv, Permutation_length in H2;
      apply heappush_inv, Permutation_length in H3
  end.
  simpl in *. lia.
Qed.

Definition _build_huffman_tree (freq_table : list (byte * Z))
  : option (option Node) :=
  match freq_table with
  | [] => Some None
  | _ :: _ =>
      heap ← push_leaves freq_table [];
      if decide (length heap = 1%nat) then
        heap0 ← heap !! 0%nat;
        '(popped, _) ← heapq.heappop Node_lt heap;
        Some (Some (mkNode None (freq heap0) (Some popped) None))
      else
        root ← merge_loop heap;
        Some (Some root)
  end.

(** ** Code table *)

(** The inner [dfs] of [_build_codes]; the dictionary [codes] it updates is
  threaded through. *)
Fixpoint dfs (node : Node) (code : bits) (codes : gmap byte bits)
  : gmap byte bits :=
  match node with
  | mkNode (Some char) _ _ _ =>
      <[char := match code with [] => [c0] | _ => code end]> codes
  | mkNode None _ left right =>
      let codes :=
        match left with
        | Some left => dfs left (code ++ [c0]) codes
        | None => codes
        end in
      match right with
      | Some right => dfs right (code ++ [c1]) codes
      | None => codes
      end
  end.

Definition _build_codes (root : option Node) : gmap byte bits :=
  match root with
  | None => ∅
  | Some root => dfs root [] ∅
  end.

(** [''.join(codes[char] for char in data)]; a missing key raises. *)
Definition _encode_data (data : list byte) (codes : gmap byte bits)
  : option bits :=
  parts ← mapM (fun char => codes !! char) data;
  Some (concat parts).

(** The [for bit in encoded_data] loop of [_decode_data].  [current] is
  [None] once the walk stepped to an absent child; reading [current.char]
  then raises. *)
Fixpoint decode_loop (encoded_data : bits) (root : Node)
    (current : option Node) (decoded : list byte)
  : option (option Node * list byte) :=
  match encoded_data with
  | [] => Some (current, decoded)
  | bit :: encoded_data =>
      cur ← current;
      let '(cur, decoded) :=
        match char cur with
        | Some ch => (root, decoded ++ [ch])
        | None => (cur, decoded)
        end in
      let current := if decide (bit = c0) then left cur else right cur in
      decode_loop encoded_data root current decoded
  end.

(** [_decode_data]: [None] when reading [current.char] raises.  The final
  [bytes(decoded)] is the list itself here, since the leaves of a [Node]
  carry bytes; the [ValueError] or [TypeError] it raises on a leaf value
  outside [0, 255] has no counterpart, such trees being outside [Node]. *)
Definition _decode_data (encoded_data : bits) (root : option Node)
  : option (list byte) :=
  match root, encoded_data with
  | None, _ | _, [] => Some []
  | Some root, _ =>
      '(current, decoded) ← decode_loop encoded_data root (Some root) [];
      cur ← current;
      match char cur with
      | Some ch => Some (decoded ++ [ch])
      | None => Some decoded
      end
  end.

(** ** Tree serialization *)

(** The value [_serialize_tree] builds: [None], [('leaf', char)] or
  [('internal', left, right)]. *)
Inductive tree_data : Type :=
  | TNone
  | TLeaf (char : byte)
  | TInternal (left right : tree_data).

Fixpoint serialize_node (node : Node) : tree_data :=
  match node with
  | mkNode (Some char) _ _ _ => TLeaf char
  | mkNode None _ left right =>
      TInternal
        (match left with Some n => serialize_node n | None => TNone end)
        (match right with Some n => serialize_node n | None => TNone end)
  end.

Definition _serialize_tree (node : option Node) : tree_data :=
  match node with
  | None => TNone
  | Some node => serialize_node node
  end.

Fixpoint _deserialize_tree (data : tree_data) : option Node :=
  match data with
  | TNone => None
  | TLeaf char => Some (mkNode (Some char) 0 None None)
  | TInternal l r =>
      let left := _deserialize_tree l in
      let right := _deserialize_tree r in
      Some (mkNode None 0 left right)
  end.

(** ** Bits and bytes *)

Definition byte_to_Z (b : byte) : Z := Z.of_N (Byte.to_N b).

(** The byte of an [int], as [bytearray.append] and [struct.pack('<B')]
  take it: a value outside [0, 255] raises. *)
Definition byte_of_Z (n : Z) : option byte :=
  if decide (0 <= n) then Byte.of_N (Z.to_N n) else None.

(** [int(s, 2)] on a string of binary digits; the empty string and any
  other character raise. *)
Fixpoint int2_digits (acc : Z) (s : bits) : option Z :=
  match s with
  | [] => Some acc
  | c :: s =>
      if decide (c = c0) then int2_digits (2 * acc) s
      else if decide (c = c1) then int2_digits (2 * acc + 1) s
      else None
  end.

Definition int2 (s : bits) : option Z :=
  match s with
  | [] => None
  | _ => int2_digits 0 s
  end.

(** [format(byte, '08b')] *)
Definition format_08b (b : byte) : bits :=
  (fun k => if Z.testbit (byte_to_Z b) k then c1 else c0)
    <$> [7; 6; 5; 4; 3; 2; 1; 0].

(** [range(0, stop, step)] *)
Definition range0 (stop step : nat) : list nat :=
  (fun k => k * step)%nat <$> seq 0 ((stop + step - 1) / step)%nat.

(** [s[i:j]] for [0 <= i <= j] *)
Definition slice {A : Type} (s : list A) (i j : nat) : list A :=
  take (j - i) (drop i s).

(** [s[:-n]] for [n >= 0]; note that [s[:-0]] is empty. *)
Definition slice_to_neg {A : Type} (s : list A) (n : nat) : list A :=
  match n with
  | O => []
  | _ => take (length s - n) s
  end.

(** [padding = 8 - len(encoded_data) % 8] *)
Definition padding_of (encoded_data : bits) : nat :=
  (8 - length encoded_data mod 8)%nat.

(** [if padding != 8: encoded_data += '0' * padding] *)
Definition add_padding (encoded_data : bits) : bits :=
  let padding := padding_of encoded_data in
  if decide (padding ≠ 8%nat) then encoded_data ++ replicate padding c0
  else encoded_data.

(** [if padding != 8: encoded_data = encoded_data[:-padding]] *)
Definition strip_padding (padding : Z) (encoded_data : bits) : bits :=
  if decide (padding ≠ 8) then slice_to_neg encoded_data (Z.to_nat padding)
  else encoded_data.

(** The loop filling [compressed_data]. *)
Definition pack_bits (encoded_data : bits) : option (list byte) :=
  mapM (fun i => n ← int2 (slice encoded_data i (i + 8)); byte_of_Z n)
       (range0 (length encoded_data) 8).

(** [''.join(format(byte, '08b') for byte in compressed_data)] *)
Definition unpack_bits (compressed_data : list byte) : bits :=
  concat (format_08b <$> compressed_data).

(** [struct.pack('<I', n)]: raises outside [0, 2^32). *)
Definition pack_I (n : Z) : option (list byte) :=
  if decide (0 <= n < 2 ^ 32) then
    mapM (fun k => byte_of_Z ((n / 256 ^ k) mod 256)) [0; 1; 2; 3]
  else None.

(** [struct.unpack('<I', b)[0]]: raises unless [b] has 4 bytes. *)
Definition unpack_I (b : list byte) : option Z :=
  match b with
  | [b0; b1; b2; b3] =>
      Some (byte_to_Z b0 + 256 * (byte_to_Z b1
              + 256 * (byte_to_Z b2 + 256 * byte_to_Z b3)))
  | _ => None
  end.

(** [struct.pack('<B', n)] *)
Definition pack_B (n : Z) : option (list byte) :=
  b ← byte_of_Z n; Some [b].

(** [struct.unpack('<B', b)[0]] *)
Definition unpack_B (b : list byte) : option Z :=
  match b with
  | [b0] => Some (byte_to_Z b0)
  | _ => None
  end.

(** [b'HZIP'] *)
Definition MAGIC : list byte := [x48; x5a; x49; x50].

(** ** [compress] and [decompress] *)

(** What a call leaves behind: the value returned, the diagnostic printed on
  a failing path, and the content of [output_file] ([None] when the file
  was never opened for writing). *)
Inductive diagnostic : Type :=
  | EmptyInputFile     (* "File đầu vào trống!" *)
  | CompressError      (* "Lỗi khi nén file: ..." *)
  | NotHZIPFormat      (* "Lỗi: File không phải định dạng HZIP!" *)
  | DecompressError.   (* "Lỗi khi giải nén file: ..." *)

Record outcome : Type := mkOutcome {
  returned : bool;
  printed : option diagnostic;
  written : option (list byte)
}.

(** Lines 137-142 of [compress]: tree, codes and encoded bit-string. *)
Definition encode_input (data : list byte) : option (option Node * bits) :=
  let freq_table := _build_frequency_table data in
  root ← _build_huffman_tree freq_table;
  let codes := _build_codes root in
  encoded_data ← _encode_data data codes;
  Some (root, encoded_data).

(** [f.read(n)] on the unread rest of a file: what was read and what is
  left. *)
Definition read (n : nat) (f : list byte) : list byte * list byte :=
  (take n f, drop n f).

Section Pickle.
(** [pickle.dumps] and [pickle.loads] on the values [_serialize_tree]
  builds.  [pickle_loads] is [None] when unpickling raises.  A pickle
  that holds a value of another form (a leaf value that is no byte, a
  tuple of another shape) is not represented: what [decompress] does on
  it is not stated here. *)
Variable pickle_dumps : tree_data -> list byte.
Variable pickle_loads : list byte -> option tree_data.

Definition compress (data : list byte) : outcome :=
  match data with
  | [] => mkOutcome false (Some EmptyInputFile) None
  | _ :: _ =>
      match
        '(root, encoded_data) ← encode_input data;
        let padding := padding_of encoded_data in
        let encoded_data := add_padding encoded_data in
        compressed_data ← pack_bits encoded_data;
        Some (root, padding, compressed_data)
      with
      | None => mkOutcome false (Some CompressError) None
      | Some (root, padding, compressed_data) =>
          let f := MAGIC in
          let tree_data := _serialize_tree root in
          let tree_bytes := pickle_dumps tree_data in
          match pack_I (Z.of_nat (length tree_bytes)) with
          | None => mkOutcome false (Some CompressError) (Some f)
          | Some size_bytes =>
              let f := f ++ size_bytes in
              match pack_B (Z.of_nat padding) with
              | None => mkOutcome false (Some CompressError) (Some f)
              | Some padding_byte =>
                  let f := f ++ padding_byte in
                  let f := f ++ tree_bytes in
                  let f := f ++ compressed_data in
                  mkOutcome true None (Some f)
              end
          end
      end
  end.

Definition decompress (input : list byte) : outcome :=
  let '(magic, f) := read 4 input in
  if decide (magic ≠ MAGIC) then mkOutcome false (Some NotHZIPFormat) None
  else
    match
      let '(b, f) := read 4 f in
      tree_size ← unpack_I b;
      let '(b, f) := read 1 f in
      padding ← unpack_B b;
      let '(tree_bytes, f) := read (Z.to_nat tree_size) f in
      tree_data ← pickle_loads tree_bytes;
      let root := _deserialize_tree tree_data in
      let compressed_data := f in
      let encoded_data := unpack_bits compressed_data in
      let encoded_data := strip_padding padding encoded_data in
      _decode_data encoded_data root
    with
    | None => mkOutcome false (Some DecompressError) None
    | Some decoded_data => mkOutcome true None (Some decoded_data)
    end.
End Pickle.

(** ** Shapes of trees *)

(** Induction over [Node] that reaches through the optional children. *)
Definition on_child (P : Node -> Prop) (child : option Node) : Prop :=
  match child with
  | Some n => P n
  | None => True
  end.

Fixpoint Node_child_ind (P : Node -> Prop)
    (step : forall c f l r, on_child P l -> on_child P r -> P (mkNode c f l r))
    (n : Node) {struct n} : P n :=
  match n with
  | mkNode c f l r =>
      step c f l r
        (match l return on_child P l with
         | Some ln => Node_child_ind P step ln
         | None => I
         end)
        (match r return on_child P r with
         | Some rn => Node_child_ind P step rn
         | None => I
         end)
  end.

(** The leaves below a node with the bits of the walk that reaches each:
  "0" for a step to the left child, "1" to the right. *)
Fixpoint paths (node : Node) : list (byte * bits) :=
  match node with
  | mkNode (Some char) _ _ _ => [(char, [])]
  | mkNode None _ left right =>
      match left with
      | Some n => prod_map id (cons c0) <$> paths n
      | None => []
      end ++
      match right with
      | Some n => prod_map id (cons c1) <$> paths n
      | None => []
      end
  end.

(** The byte values on the leaves. *)
Definition leaves (node : Node) : list byte := (paths node).*1.

(** A leaf has no children, everywhere in the tree. *)
Fixpoint well_formed (node : Node) : bool :=
  match node with
  | mkNode (Some _) _ None None => true
  | mkNode (Some _) _ _ _ => false
  | mkNode None _ left right =>
      match left with Some n => well_formed n | None => true end
      && match right with Some n => well_formed n | None => true end
  end.

(** Every internal node has both children (and leaves have none). *)
Fixpoint full (node : Node) : bool :=
  match node with
  | mkNode (Some _) _ None None => true
  | mkNode (Some _) _ _ _ => false
  | mkNode None _ (Some l) (Some r) => full l && full r
  | mkNode None _ _ _ => false
  end.

(** Same leaf/internal structure, same placement of children and same
  byte on corresponding leaves; weights are not compared. *)
Fixpoint same_shape (a b : Node) : bool :=
  match a, b with
  | mkNode ca _ la ra, mkNode cb _ lb rb =>
      bool_decide (ca = cb)
      && match la, lb with
         | Some x, Some y => same_shape x y
         | None, None => true
         | _, _ => false
         end
      && match ra, rb with
         | Some x, Some y => same_shape x y
         | None, None => true
         | _, _ => false
         end
  end.

(** No code of the table is a prefix of the code of another byte. *)
Definition prefix_free (codes : gmap byte bits) : Prop :=
  forall a b code_a code_b,
    a ≠ b -> codes !! a = Some code_a -> codes !! b = Some code_b ->
    ¬ code_a `prefix_of` code_b.

(** The code [dfs] stores for a leaf reached with [code]. *)
Definition stored_code (code : bits) : bits :=
  match code with
  | [] => [c0]
  | _ => code
  end.

Definition binary (s : bits) : Prop := Forall (fun c => c = c0 \/ c = c1) s.

(** ** Facts about tree construction *)

Definition leaf_of (item : byte * Z) : Node :=
  mkNode (Some item.1) item.2 None None.

Lemma merge_loop_step heap :
  merge_loop heap =
    if decide (1 < length heap)%nat then
      '(l, heap1) ← heapq.heappop Node_lt heap;
      '(r, heap2) ← heapq.heappop Node_lt heap1;
      heap3 ← heapq.heappush Node_lt heap2
                 (mkNode None (freq l + freq r) (Some l) (Some r));
      merge_loop heap3
    else heap !! 0%nat.
Proof.
  funelim (merge_loop heap);
    repeat match goal with
    | H : decide _ = _ |- _ => rewrite H
    | H : heapq.heappop _ _ = _ |- _ => rewrite H; simpl
    | H : heapq.heappush _ _ _ = _ |- _ => rewrite H; simpl
    end; done.
Qed.

Lemma push_leaves_Permutation items heap :
  exists heap', push_leaves items heap = Some heap'
    /\ heap' ≡ₚ (leaf_of <$> items) ++ heap.
Proof.
  revert heap. induction items as [|[c f] items IH]; intros heap; simpl.
  - by exists heap.
  - destruct (heappush_Permutation Node_lt heap (mkNode (Some c) f None None))
      as (heap1 & -> & Hperm1). simpl.
    destruct (IH heap1) as (heap' & -> & Hperm). eexists; split; [done|].
    rewrite Hperm, Hperm1. by rewrite <-Permutation_middle.
Qed.

Lemma leaves_leaf_of items : (leaf_of <$> items) ≫= leaves = items.*1.
Proof. induction items as [|[c f] items IH]; [done|]. simpl. by f_equal. Qed.

Lemma full_well_formed node : full node = true -> well_formed node = true.
Proof.
  induction node as [c f l r IHl IHr] using Node_child_ind.
  destruct c as [c|], l as [l|], r as [r|]; simpl in *; try done.
  intros [Hl Hr]%andb_true_iff. apply andb_true_iff. auto.
Qed.

Lemma leaves_internal f l r :
  leaves (mkNode None f (Some l) (Some r)) = leaves l ++ leaves r.
Proof.
  unfold leaves. simpl. rewrite fmap_app, <-!list_fmap_compose.
  f_equal; apply list_fmap_ext; by intros ? [].
Qed.

Lemma merge_loop_spec heap :
  heap ≠ [] -> Forall (fun n => full n = true) heap ->
  exists root, merge_loop heap = Some root
    /\ full root = true
    /\ leaves root ≡ₚ heap ≫= leaves
    /\ (heap = [root] \/ char root = None).
Proof.
  remember (length heap) as m eqn:Hm. revert heap Hm.
  induction (lt_wf m) as [m _ IH]. intros heap -> Hne Hfull.
  rewrite merge_loop_step. destruct (decide (1 < length heap)%nat) as [Hlen|Hlen].
  - destruct (heappop_Permutation Node_lt heap Hne) as (l & heap1 & -> & Hp1).
    simpl.
    assert (Hlen1 : length heap = S (length heap1)) by by rewrite Hp1.
    destruct (heappop_Permutation Node_lt heap1) as (r & heap2 & -> & Hp2).
    { intros ->. simpl in *. lia. }
    simpl.
    assert (Hlen2 : length heap1 = S (length heap2)) by by rewrite Hp2.
    set (merged := mkNode None (freq l + freq r) (Some l) (Some r)).
    destruct (heappush_Permutation Node_lt heap2 merged)
      as (heap3 & -> & Hp3). simpl.
    assert (Hlen3 : length heap3 = S (length heap2)) by by rewrite Hp3.
    rewrite Hp1, Hp2 in Hfull.
    apply Forall_cons in Hfull as [Hl Hfull].
    apply Forall_cons in Hfull as [Hr Hfull].
    destruct (IH (length heap3) ltac:(lia) heap3 eq_refl)
      as (root & -> & Hroot & Hleaves & Hone).
    { intros ->. simpl in *. lia. }
    { rewrite Hp3. constructor; [|done]. simpl. by rewrite Hl, Hr. }
    exists root. split_and!; [done..| |].
    + rewrite Hleaves, Hp3, Hp1, Hp2. simpl. unfold merged.
      by rewrite leaves_internal, (assoc (++)).
    + right. destruct Hone as [->|]; [|done].
      apply Permutation_singleton_l in Hp3. by injection Hp3 as -> _.
  - destruct heap as [|root [|??]]; simpl in *; try done; try lia.
    exists root. apply Forall_cons in Hfull as [Hroot _].
    split_and!; [done..| |by left].
    by rewrite (right_id [] (++)).
Qed.

(** What [_build_huffman_tree] returns on a non-empty table: never an
  exception; either the wrapper around the only leaf, or a full tree. *)
Lemma build_huffman_tree_spec (freq_table : list (byte * Z)) :
  freq_table ≠ [] ->
  exists root, _build_huffman_tree freq_table = Some (Some root)
    /\ char root = None
    /\ leaves root ≡ₚ freq_table.*1
    /\ match freq_table with
       | [item] => root = mkNode None item.2 (Some (leaf_of item)) None
       | _ => full root = true
       end.
Proof.
  intros Hne. unfold _build_huffman_tree.
  destruct freq_table as [|item items]; [done|].
  destruct (push_leaves_Permutation (item :: items) []) as (heap & -> & Hperm).
  rewrite (right_id [] (++)) in Hperm. cbn [mbind option_bind].
  assert (Hlen : length heap = S (length items)).
  { rewrite Hperm. simpl. by rewrite length_fmap. }
  destruct (decide (length heap = 1%nat)) as [H1|H1].
  - destruct items; [|simpl in *; lia].
    apply Permutation_singleton_r in Hperm. subst heap.
    destruct item as [c f]. eexists. split; [reflexivity|]. by simpl.
  - destruct (merge_loop_spec heap) as (root & -> & Hfull & Hleaves & Hone).
    { intros ->. done. }
    { rewrite Hperm. apply Forall_fmap, Forall_true. by intros []. }
    exists root. split_and!; [done| | |].
    + destruct Hone as [->|]; [done|done].
    + by rewrite Hleaves, Hperm, leaves_leaf_of.
    + destruct items; [simpl in *; lia|done].
Qed.

(** ** Facts about walks and the code table *)

Lemma paths_nil node c : (c, []) ∈ paths node -> char node = Some c.
Proof.
  destruct node as [[ch|] f l r]; simpl.
  - by intros [= ->]%list_elem_of_singleton.
  - intros [Hin|Hin]%elem_of_app; [destruct l|destruct r];
      try (by apply elem_of_nil in Hin);
      by apply list_elem_of_fmap in Hin as ([? ?] & [= _ ?] & _).
Qed.

(** The first bit of a walk selects the child the rest of it is in. *)
Lemma paths_cons node c b p :
  (c, b :: p) ∈ paths node ->
  char node = None /\ (b = c0 \/ b = c1)
  /\ exists child,
       (if decide (b = c0) then left node else right node) = Some child
       /\ (c, p) ∈ paths child.
Proof.
  destruct node as [[ch|] f l r]; simpl.
  - by intros [= _ ?]%list_elem_of_singleton.
  - intros [Hin|Hin]%elem_of_app; [destruct l as [n|]|destruct r as [n|]];
      try (by apply elem_of_nil in Hin);
      apply list_elem_of_fmap in Hin as ([? ?] & [= -> -> ->] & Hin).
    + split_and!; [done|by left|]. exists n. by rewrite decide_True.
    + split_and!; [done|by right|]. exists n. by rewrite decide_False.
Qed.

Lemma paths_left f l r c p :
  (c, p) ∈ paths l -> (c, c0 :: p) ∈ paths (mkNode None f (Some l) r).
Proof.
  intros Hin. simpl. apply elem_of_app. left.
  apply list_elem_of_fmap. by exists (c, p).
Qed.

Lemma paths_right f l r c p :
  (c, p) ∈ paths r -> (c, c1 :: p) ∈ paths (mkNode None f l (Some r)).
Proof.
  intros Hin. simpl. apply elem_of_app. right.
  apply list_elem_of_fmap. by exists (c, p).
Qed.

Lemma paths_binary node c p : (c, p) ∈ paths node -> binary p.
Proof.
  revert node. induction p as [|b p IH]; intros node Hin; [constructor|].
  apply paths_cons in Hin as (_ & Hb & child & _ & Hin).
  constructor; [done|]. by apply (IH child).
Qed.

(** Two walks of one tree, one a prefix of the other, are the same walk to
  the same leaf. *)
Lemma paths_prefix node a b p q :
  (a, p) ∈ paths node -> (b, p ++ q) ∈ paths node -> a = b /\ q = [].
Proof.
  revert node. induction p as [|x p IH]; intros node Ha Hb; simpl in *.
  - apply paths_nil in Ha. destruct q as [|y q].
    + apply paths_nil in Hb. split; congruence.
    + apply paths_cons in Hb as (Hb & _). congruence.
  - apply paths_cons in Ha as (_ & _ & child & Hchild & Ha).
    apply paths_cons in Hb as (_ & _ & child' & Hchild' & Hb).
    rewrite Hchild in Hchild'. injection Hchild' as <-. by apply (IH child).
Qed.

(** [dfs] gives every leaf below [node] the bits of a walk to it, after
  [code], and leaves the other entries of [codes] alone. *)
Lemma dfs_lookup node code codes ch :
  (ch ∈ leaves node
   /\ exists p, ((ch, p) ∈ paths node)
        /\ (dfs node code codes !! ch = Some (stored_code (code ++ p))))
  \/ ((ch ∉ leaves node) /\ (dfs node code codes !! ch = codes !! ch)).
Proof.
  revert code codes.
  induction node as [c f l r IHl IHr] using Node_child_ind.
  intros code codes. destruct c as [c|].
  - unfold leaves. simpl. destruct (decide (ch = c)) as [->|Hne].
    + left. split; [by apply list_elem_of_singleton|].
      exists []. split; [by apply list_elem_of_singleton|].
      rewrite (right_id [] (++)). by rewrite lookup_insert_eq.
    + right. split; [by intros ?%list_elem_of_singleton|].
      by rewrite lookup_insert_ne.
  - simpl. set (codes1 := match l with
                          | Some n => dfs n (code ++ [c0]) codes
                          | None => codes
                          end).
    assert (Hl : (exists n, l = Some n /\ ch ∈ leaves n
                   /\ exists p, (ch, p) ∈ paths n
                        /\ codes1 !! ch = Some (stored_code (code ++ c0 :: p)))
                 \/ ((forall n, l = Some n -> ch ∉ leaves n)
                     /\ codes1 !! ch = codes !! ch)).
    { destruct l as [n|]; [|right; by split].
      destruct (IHl (code ++ [c0]) codes) as [(Hin & p & Hp & Hlk)|[Hin Hlk]].
      - left. exists n. split_and!; [done..|]. exists p. split; [done|].
        unfold codes1. by rewrite Hlk, <-(assoc (++)).
      - right. split; [|done]. by intros ? [= <-]. }
    destruct r as [n|].
    + destruct (IHr (code ++ [c1]) codes1) as [(Hin & p & Hp & Hlk)|[Hin Hlk]].
      * left. split.
        { apply list_elem_of_fmap. exists (ch, c1 :: p).
          split; [done|]. by apply (paths_right f l n). }
        exists (c1 :: p). split; [by apply (paths_right f l n)|].
        by rewrite Hlk, <-(assoc (++)).
      * rewrite Hlk. destruct Hl as [(m & -> & Hm & p & Hp & Hlk')|[Hnl Hlk']].
        -- left. split.
           { apply list_elem_of_fmap. exists (ch, c0 :: p).
             split; [done|]. by apply (paths_left f m (Some n)). }
           exists (c0 :: p). split; [by apply (paths_left f m (Some n))|done].
        -- right. split; [|done]. unfold leaves. simpl.
           rewrite fmap_app, not_elem_of_app. split.
           ++ destruct l as [m|]; [|by apply not_elem_of_nil].
              rewrite <-list_fmap_compose.
              rewrite (list_fmap_ext _ fst (paths m)); [|by intros ? []].
              by apply Hnl.
           ++ rewrite <-list_fmap_compose.
              by rewrite (list_fmap_ext _ fst (paths n)); [|by intros ? []].
    + destruct Hl as [(m & -> & Hm & p & Hp & Hlk')|[Hnl Hlk']].
      * left. split.
        { apply list_elem_of_fmap. exists (ch, c0 :: p).
          split; [done|]. by apply (paths_left f m None). }
        exists (c0 :: p). split; [by apply (paths_left f m None)|done].
      * right. split; [|done]. unfold leaves. simpl.
        rewrite (right_id [] (++)).
        destruct l as [m|]; [|by apply not_elem_of_nil].
        rewrite <-list_fmap_compose.
        rewrite (list_fmap_ext _ fst (paths m)); [|by intros ? []].
        by apply Hnl.
Qed.

(** Under an internal root every stored code is the walk to its leaf. *)
Lemma build_codes_lookup root ch :
  char root = None ->
  (ch ∈ leaves root ->
     exists p, (ch, p) ∈ paths root /\ p ≠ []
       /\ _build_codes (Some root) !! ch = Some p)
  /\ (forall s, _build_codes (Some root) !! ch = Some s ->
        (ch, s) ∈ paths root /\ s ≠ []).
Proof.
  intros Hroot.
  assert (Hne : forall c p, (c, p) ∈ paths root -> p ≠ []).
  { intros c p Hin ->. apply paths_nil in Hin. congruence. }
  assert (Hst : forall c p, (c, p) ∈ paths root -> stored_code ([] ++ p) = p).
  { intros c [|b p] Hin; [by apply Hne in Hin|done]. }
  unfold _build_codes.
  destruct (dfs_lookup root [] ∅ ch) as [(Hin & p & Hp & Hlk)|[Hin Hlk]].
  - rewrite (Hst ch p Hp) in Hlk. split.
    + intros _. exists p. split_and!; [done|by eapply Hne|done].
    + intros s Hs. rewrite Hlk in Hs. injection Hs as <-.
      split; [done|by eapply Hne].
  - split; [done|]. intros s Hs. rewrite Hlk in Hs.
    by rewrite lookup_empty in Hs.
Qed.

Lemma build_codes_prefix_free root :
  char root = None -> prefix_free (_build_codes (Some root)).
Proof.
  intros Hroot a b code_a code_b Hab Ha Hb [q ->].
  apply (build_codes_lookup root a Hroot) in Ha as [Ha _].
  apply (build_codes_lookup root b Hroot) in Hb as [Hb _].
  by destruct (paths_prefix root a b code_a q Ha Hb).
Qed.

(** ** Facts about decoding *)

(** What the decoder still has to output for the node it stands on. *)
Definition pending (cur : Node) : list byte :=
  match char cur with
  | Some ch => [ch]
  | None => []
  end.

Section Decode.
Variable root : Node.
Hypothesis root_internal : char root = None.

Lemma decode_loop_paths p : forall node rest decoded c,
  (c, p) ∈ paths node ->
  exists leaf, char leaf = Some c
    /\ decode_loop (p ++ rest) root (Some node) decoded
       = decode_loop rest root (Some leaf) decoded.
Proof.
  induction p as [|b p IH]; intros node rest decoded c Hin.
  - exists node. split; [by apply paths_nil|done].
  - apply paths_cons in Hin as (Hnode & _ & child & Hchild & Hin).
    destruct (IH child rest decoded c Hin) as (leaf & Hleaf & Heq).
    exists leaf. split; [done|]. simpl. by rewrite Hnode, Hchild.
Qed.

Lemma decode_loop_symbol p cur rest decoded c :
  (c, p) ∈ paths root -> (cur = root \/ char cur ≠ None) ->
  exists leaf, char leaf = Some c
    /\ decode_loop (p ++ rest) root (Some cur) decoded
       = decode_loop rest root (Some leaf) (decoded ++ pending cur).
Proof.
  intros Hin Hcur. destruct p as [|b p].
  { apply paths_nil in Hin. congruence. }
  apply paths_cons in Hin as (_ & _ & child & Hchild & Hin).
  destruct (decode_loop_paths p child rest (decoded ++ pending cur) c Hin)
    as (leaf & Hleaf & Heq).
  exists leaf. split; [done|]. rewrite <-Heq. simpl. unfold pending.
  destruct (char cur) as [ch|] eqn:Hch.
  - by rewrite Hchild.
  - destruct Hcur as [->|]; [|done]. by rewrite (right_id [] (++)), Hchild.
Qed.

Lemma decode_loop_concat data parts : forall cur decoded,
  Forall2 (fun ch p => (ch, p) ∈ paths root) data parts ->
  (cur = root \/ char cur ≠ None) ->
  exists cur' decoded',
    decode_loop (concat parts) root (Some cur) decoded
      = Some (Some cur', decoded')
    /\ decoded' ++ pending cur' = decoded ++ pending cur ++ data.
Proof.
  intros cur decoded Hparts. revert cur decoded.
  induction Hparts as [|ch p data parts Hin _ IH]; intros cur decoded Hcur.
  - exists cur, decoded. by rewrite (right_id [] (++)).
  - simpl.
    destruct (decode_loop_symbol p cur (concat parts) decoded ch Hin Hcur)
      as (leaf & Hleaf & ->).
    destruct (IH leaf (decoded ++ pending cur)) as (cur' & decoded' & -> & Heq).
    { right. congruence. }
    exists cur', decoded'. split; [done|]. rewrite Heq.
    unfold pending at 2. rewrite Hleaf. by rewrite <-(assoc (++)).
Qed.

(** Encoding with the codes of a tree [coder] and decoding with a tree that
  has the same walks gives the data back. *)
Lemma decode_encode coder data :
  char coder = None -> paths coder = paths root ->
  data ≠ [] -> (forall ch, ch ∈ data -> ch ∈ leaves coder) ->
  exists encoded_data,
    _encode_data data (_build_codes (Some coder)) = Some encoded_data
    /\ encoded_data ≠ [] /\ binary encoded_data
    /\ _decode_data encoded_data (Some root) = Some data.
Proof.
  intros coder_internal Hsame Hne Hin. unfold _encode_data.
  destruct (mapM (fun ch => _build_codes (Some coder) !! ch) data)
    as [parts|] eqn:Hparts.
  2:{ exfalso. assert (Hs : is_Some (mapM (fun ch =>
          _build_codes (Some coder) !! ch) data)).
      { apply mapM_is_Some, Forall_forall. intros ch Hch. simpl.
        destruct (build_codes_lookup coder ch coder_internal) as [H1 _].
        destruct (H1 (Hin ch Hch)) as (p & _ & _ & Hp). by exists p. }
      rewrite Hparts in Hs. by destruct Hs. }
  apply mapM_Some in Hparts. simpl. eexists; split; [done|].
  assert (Hpaths : Forall2 (fun ch p => (ch, p) ∈ paths root /\ p ≠ [])
                     data parts).
  { eapply Forall2_impl; [done|]. intros ch p Hlk. simpl in Hlk.
    rewrite <-Hsame. by apply (build_codes_lookup coder ch coder_internal). }
  assert (Hnonempty : concat parts ≠ []).
  { destruct Hpaths as [|ch p ?? [_ Hp] _]; [done|]. simpl.
    destruct p; [done|]. discriminate. }
  split_and!; [done| |].
  - unfold binary. apply Forall_concat, Forall_forall. intros p Hp.
    apply list_elem_of_lookup in Hp as [i Hp].
    destruct (Forall2_lookup_r _ _ _ _ _ Hpaths Hp) as (ch & _ & Hch & _).
    by apply (paths_binary root ch).
  - destruct (decode_loop_concat data parts root []) as
      (cur' & decoded' & Hloop & Heq); [|by left|].
    { eapply Forall2_impl; [done|]. by intros ?? [? _]. }
    unfold _decode_data. destruct (concat parts) as [|b rest] eqn:Hc; [done|].
    rewrite Hloop. simpl. unfold pending in Heq. rewrite root_internal in Heq.
    simpl in Heq. destruct (char cur').
    + by rewrite Heq.
    + by rewrite (right_id [] (++)) in Heq; rewrite Heq.
Qed.
End Decode.

(** ** Facts about serialization *)

Lemma deserialize_serialize_node node :
  well_formed node = true ->
  exists node', _deserialize_tree (serialize_node node) = Some node'
    /\ same_shape node node' = true
    /\ char node' = char node
    /\ paths node' = paths node.
Proof.
  induction node as [c f l r IHl IHr] using Node_child_ind.
  destruct c as [c|].
  - destruct l, r; simpl; try done. intros _. eexists. split; [done|].
    simpl. by rewrite bool_decide_eq_true_2.
  - simpl. intros [Hl Hr]%andb_true_iff. eexists. split; [done|]. simpl.
    assert (Hchild : forall child : option Node,
      on_child (fun n => well_formed n = true ->
        exists n', _deserialize_tree (serialize_node n) = Some n'
          /\ same_shape n n' = true /\ char n' = char n
          /\ paths n' = paths n) child ->
      match child with Some n => well_formed n | None => true end = true ->
      match child, _deserialize_tree
                     match child with
                     | Some n => serialize_node n
                     | None => TNone
                     end with
      | Some x, Some y => same_shape x y = true /\ paths y = paths x
      | None, None => True
      | _, _ => False
      end).
    { intros [n|] IH Hwf; [|done]. simpl in IH.
      by destruct (IH Hwf) as (n' & -> & ? & _ & ?). }
    specialize (Hchild l IHl Hl) as Hl'. specialize (Hchild r IHr Hr) as Hr'.
    destruct l as [ln|], r as [rn|];
      repeat match goal with
      | H : context [_deserialize_tree ?t] |- _ =>
          destruct (_deserialize_tree t); try done
      end;
      repeat match goal with H : _ /\ _ |- _ => destruct H end;
      split_and!; try done;
      repeat match goal with H : _ = true |- _ => rewrite H end;
      repeat match goal with H : paths _ = _ |- _ => rewrite H end; done.
Qed.

(** ** Facts about the frequency table *)

Lemma counter_add_keys c d x :
  x ∈ (counter_add c d).*1 <-> x = c \/ x ∈ d.*1.
Proof.
  induction d as [|[k v] d IH]; simpl.
  - rewrite list_elem_of_singleton, elem_of_nil. tauto.
  - destruct (decide (k = c)) as [->|Hne]; simpl.
    + rewrite !elem_of_cons. tauto.
    + rewrite !elem_of_cons, IH. tauto.
Qed.

Lemma Counter_keys data x : x ∈ (Counter data).*1 <-> x ∈ data.
Proof.
  unfold Counter.
  assert (H : forall d, x ∈ (foldl (fun d c => counter_add c d) d data).*1
                        <-> x ∈ d.*1 \/ x ∈ data).
  { induction data as [|c data IH]; intros d; simpl.
    - rewrite elem_of_nil. tauto.
    - rewrite IH, counter_add_keys, elem_of_cons. tauto. }
  rewrite H. simpl. rewrite elem_of_nil. tauto.
Qed.

Lemma Counter_nonempty data : data ≠ [] -> Counter data ≠ [].
Proof.
  destruct data as [|c data]; [done|]. intros _ Hnil.
  assert (Hc : c ∈ (Counter (c :: data)).*1) by (apply Counter_keys; left).
  rewrite Hnil in Hc. by apply elem_of_nil in Hc.
Qed.

Lemma Counter_replicate c n :
  Counter (replicate (S n) c) = [(c, Z.of_nat (S n))].
Proof.
  unfold Counter. simpl.
  assert (H : forall k, foldl (fun d c => counter_add c d) [(c, k)]
                          (replicate n c) = [(c, k + Z.of_nat n)]).
  { induction n as [|n IH]; intros k; simpl.
    - by rewrite Z.add_0_r.
    - rewrite decide_True by done. rewrite IH. do 2 f_equal. lia. }
  rewrite H. do 2 f_equal. lia.
Qed.

(** ** Facts about bits and bytes *)

Lemma byte_of_Z_Some n :
  0 <= n < 256 -> exists b, byte_of_Z n = Some b /\ byte_to_Z b = n.
Proof.
  intros Hn. unfold byte_of_Z, byte_to_Z. rewrite decide_True by lia.
  destruct (Byte.of_N (Z.to_N n)) as [b|] eqn:Hb.
  - exists b. split; [done|]. apply Byte.to_of_N in Hb. lia.
  - apply Byte.of_N_None_iff in Hb. lia.
Qed.

Lemma byte_to_Z_range b : 0 <= byte_to_Z b < 256.
Proof.
  unfold byte_to_Z. pose proof (Byte.to_N_bounded b). lia.
Qed.

Lemma byte_of_to_Z b : byte_of_Z (byte_to_Z b) = Some b.
Proof.
  unfold byte_of_Z, byte_to_Z. rewrite decide_True by lia.
  by rewrite N2Z.id, Byte.of_to_N.
Qed.

(** Eight binary digits are the [format(_, '08b')] of the byte they
  denote. *)
Lemma format_08b_int2 (chunk : bits) :
  length chunk = 8%nat -> binary chunk ->
  exists b, (n ← int2 chunk; byte_of_Z n) = Some b /\ format_08b b = chunk.
Proof.
  intros Hlen Hbin.
  do 9 (destruct chunk as [|? chunk]; try discriminate Hlen).
  unfold binary in Hbin.
  do 8 (apply Forall_cons in Hbin as [[-> | ->] Hbin]);
    clear; eexists; split; vm_compute; reflexivity.
Qed.

Lemma unpack_bits_cons b bs :
  unpack_bits (b :: bs) = format_08b b ++ unpack_bits bs.
Proof. done. Qed.

Lemma pack_bits_from (s : bits) (m : nat) : forall j : nat,
  binary s -> length s = ((j + m) * 8)%nat ->
  exists bs,
    mapM (fun i => n ← int2 (slice s i (i + 8)); byte_of_Z n)
         ((fun k => k * 8)%nat <$> seq j m) = Some bs
    /\ unpack_bits bs = drop (j * 8) s.
Proof.
  induction m as [|m IH]; intros j Hbin Hlen.
  - exists []. split; [done|]. rewrite drop_ge by lia. done.
  - destruct (IH (S j) Hbin ltac:(lia)) as (bs & Hbs & Hun).
    destruct (format_08b_int2 (slice s (j * 8) (j * 8 + 8)))
      as (b & Hb & Hfmt).
    { unfold slice. rewrite length_take, length_drop. lia. }
    { unfold slice. by apply Forall_take, Forall_drop. }
    exists (b :: bs). split.
    + cbn [seq fmap list_fmap mapM]. rewrite Hb. cbn. rewrite Hbs. done.
    + rewrite unpack_bits_cons, Hfmt, Hun. unfold slice.
      replace (j * 8 + 8 - j * 8)%nat with 8%nat by lia.
      replace (S j * 8)%nat with (j * 8 + 8)%nat by lia.
      rewrite <-drop_drop. apply take_drop.
Qed.

(** Packing a whole number of bytes of binary digits and unpacking them
  again changes nothing. *)
Lemma unpack_pack_bits s :
  binary s -> (length s mod 8 = 0)%nat ->
  exists bs, pack_bits s = Some bs /\ unpack_bits bs = s.
Proof.
  intros Hbin Hmod. unfold pack_bits, range0.
  assert (Hdiv : length s = (length s / 8 * 8)%nat).
  { pose proof (Nat.div_mod_eq (length s) 8). lia. }
  replace ((length s + 8 - 1) / 8)%nat with (length s / 8)%nat.
  2:{ rewrite Hdiv at 2.
      replace (length s / 8 * 8 + 8 - 1)%nat
        with (7 + length s / 8 * 8)%nat by lia.
      rewrite Nat.div_add by lia. done. }
  destruct (pack_bits_from s (length s / 8) 0 Hbin) as (bs & Hbs & Hun);
    [lia|].
  exists bs. split; [done|]. by rewrite Hun.
Qed.

Lemma padding_of_range s : (1 <= padding_of s <= 8)%nat.
Proof.
  unfold padding_of. pose proof (Nat.mod_upper_bound (length s) 8). lia.
Qed.

Lemma padding_of_8 s : padding_of s = 8%nat <-> (length s mod 8 = 0)%nat.
Proof.
  unfold padding_of. pose proof (Nat.mod_upper_bound (length s) 8). lia.
Qed.

Lemma add_padding_length s : (length (add_padding s) mod 8 = 0)%nat.
Proof.
  unfold add_padding. destruct (decide (padding_of s ≠ 8%nat)) as [Hp|Hp].
  - rewrite length_app, length_replicate. unfold padding_of in *.
    pose proof (Nat.div_mod_eq (length s) 8).
    pose proof (Nat.mod_upper_bound (length s) 8).
    replace (length s + (8 - length s mod 8))%nat
      with ((length s / 8 + 1) * 8)%nat by lia.
    apply Nat.Div0.mod_mul.
  - apply padding_of_8. lia.
Qed.

Lemma add_padding_binary s : binary s -> binary (add_padding s).
Proof.
  intros Hs. unfold add_padding. case_decide; [|done].
  apply Forall_app. split; [done|]. apply Forall_replicate. by left.
Qed.

(** What [decompress] does with the padding undoes what [compress] did. *)
Lemma strip_add_padding s :
  strip_padding (Z.of_nat (padding_of s)) (add_padding s) = s.
Proof.
  unfold strip_padding.
  rewrite Nat2Z.id. pose proof (padding_of_range s) as Hr.
  unfold add_padding.
  destruct (decide (padding_of s ≠ 8%nat)) as [Hp|Hp].
  - rewrite decide_True by lia. unfold slice_to_neg.
    destruct (padding_of s) as [|p] eqn:Hpad; [lia|].
    rewrite length_app, length_replicate.
    replace (length s + S p - S p)%nat with (length s) by lia.
    by rewrite take_app_length.
  - rewrite decide_False by lia. done.
Qed.

Lemma pack_I_unpack_I n :
  0 <= n < 2 ^ 32 ->
  exists b, pack_I n = Some b /\ length b = 4%nat /\ unpack_I b = Some n.
Proof.
  intros Hn. unfold pack_I. rewrite decide_True by done.
  cbn [mapM].
  destruct (byte_of_Z_Some ((n / 256 ^ 0) mod 256)) as (b0 & -> & H0);
    [apply Z.mod_pos_bound; lia|].
  destruct (byte_of_Z_Some ((n / 256 ^ 1) mod 256)) as (b1 & -> & H1);
    [apply Z.mod_pos_bound; lia|].
  destruct (byte_of_Z_Some ((n / 256 ^ 2) mod 256)) as (b2 & -> & H2);
    [apply Z.mod_pos_bound; lia|].
  destruct (byte_of_Z_Some ((n / 256 ^ 3) mod 256)) as (b3 & -> & H3);
    [apply Z.mod_pos_bound; lia|].
  cbn. eexists. split; [done|]. split; [done|].
  unfold unpack_I. f_equal. rewrite H0, H1, H2, H3.
  change (2 ^ 32) with 4294967296 in Hn.
  change (256 ^ 0) with 1. change (256 ^ 1) with 256.
  change (256 ^ 2) with 65536. change (256 ^ 3) with 16777216.
  Z.to_euclidean_division_equations. lia.
Qed.

Lemma pack_B_unpack_B n :
  0 <= n < 256 ->
  exists b, pack_B n = Some [b] /\ unpack_B [b] = Some n.
Proof.
  intros Hn. destruct (byte_of_Z_Some n Hn) as (b & Hb & Hz).
  exists b. unfold pack_B, unpack_B. rewrite Hb. simpl. by rewrite Hz.
Qed.

(** ** Facts about [compress] and [decompress] *)

(** Lines 137-142 never raise on non-empty data; the tree has an internal
  root, and its codes decode with any tree that has the same walks. *)
Lemma encode_input_spec data :
  data ≠ [] ->
  exists root encoded_data,
    _build_huffman_tree (_build_frequency_table data) = Some (Some root)
    /\ encode_input data = Some (Some root, encoded_data)
    /\ char root = None /\ well_formed root = true
    /\ encoded_data ≠ [] /\ binary encoded_data
    /\ forall root', char root' = None -> paths root = paths root' ->
         _decode_data encoded_data (Some root') = Some data.
Proof.
  intros Hne. unfold encode_input, _build_frequency_table.
  destruct (build_huffman_tree_spec (Counter data) (Counter_nonempty data Hne))
    as (root & Hbuild & Hroot & Hleaves & Hshape).
  assert (Hin : forall ch, ch ∈ data -> ch ∈ leaves root).
  { intros ch Hch. rewrite Hleaves. by apply Counter_keys. }
  assert (Hwf : well_formed root = true).
  { destruct (Counter data) as [|item [|item' items]]; [done| |].
    - by subst root.
    - by apply full_well_formed. }
  destruct (decode_encode root Hroot root data Hroot eq_refl Hne Hin)
    as (encoded_data & Henc & Hnil & Hbin & _).
  exists root, encoded_data. rewrite Hbuild. cbn [mbind option_bind].
  rewrite Henc. split_and!; try done.
  intros root' Hroot' Hpaths.
  destruct (decode_encode root' Hroot' root data Hroot Hpaths Hne Hin)
    as (encoded_data' & Henc' & _ & _ & Hdec).
  congruence.
Qed.

Section PickleFacts.
Variable pickle_dumps : tree_data -> list byte.
Variable pickle_loads : list byte -> option tree_data.

(** The pickled tree of [data], as [compress] writes it. *)
Definition pickled_tree (data : list byte) : list byte :=
  pickle_dumps
    (_serialize_tree
       (default None (_build_huffman_tree (_build_frequency_table data)))).

(** The pickled tree fits the 4-byte length field of the container. *)
Definition tree_fits (data : list byte) : Prop :=
  Z.of_nat (length (pickled_tree data)) < 2 ^ 32.

Lemma compress_spec data :
  data ≠ [] -> tree_fits data ->
  exists root encoded_data compressed_data size_bytes padding_byte,
    encode_input data = Some (Some root, encoded_data)
    /\ pack_bits (add_padding encoded_data) = Some compressed_data
    /\ unpack_bits compressed_data = add_padding encoded_data
    /\ pickled_tree data = pickle_dumps (serialize_node root)
    /\ unpack_I size_bytes = Some (Z.of_nat (length (pickled_tree data)))
    /\ length size_bytes = 4%nat
    /\ byte_to_Z padding_byte = Z.of_nat (padding_of encoded_data)
    /\ compress pickle_dumps data
       = mkOutcome true None
           (Some (MAGIC ++ size_bytes ++ [padding_byte]
                    ++ pickled_tree data ++ compressed_data)).
Proof.
  intros Hne Hfits.
  destruct (encode_input_spec data Hne)
    as (root & encoded_data & Hbuild & Henc & _ & _ & _ & Hbin & _).
  destruct (unpack_pack_bits (add_padding encoded_data))
    as (compressed_data & Hpack & Hunpack);
    [by apply add_padding_binary|by apply add_padding_length|].
  assert (Htree : pickled_tree data = pickle_dumps (serialize_node root)).
  { unfold pickled_tree. by rewrite Hbuild. }
  destruct (pack_I_unpack_I (Z.of_nat (length (pickled_tree data))))
    as (size_bytes & Hsize & Hlen & Hunsize); [unfold tree_fits in Hfits; lia|].
  destruct (pack_B_unpack_B (Z.of_nat (padding_of encoded_data)))
    as (padding_byte & Hpb & Hunpb).
  { pose proof (padding_of_range encoded_data). lia. }
  exists root, encoded_data, compressed_data, size_bytes, padding_byte.
  split_and!; try done.
  { by injection Hunpb. }
  unfold compress. destruct data as [|c data]; [done|].
  rewrite Henc. cbn [mbind option_bind]. rewrite Hpack.
  cbn [mbind option_bind _serialize_tree]. rewrite <-Htree, Hsize, Hpb.
  by rewrite <-!(assoc (++)).
Qed.

Lemma compress_returned_true data :
  returned (compress pickle_dumps data) = true ->
  data ≠ [] /\ tree_fits data.
Proof.
  intros Hret. assert (Hne : data ≠ []) by (by intros ->). split; [done|].
  destruct (encode_input_spec data Hne)
    as (root & encoded_data & Hbuild & Henc & _).
  unfold tree_fits, pickled_tree. rewrite Hbuild. simpl.
  unfold compress in Hret. destruct data as [|c data]; [done|].
  rewrite Henc in Hret. cbn [mbind option_bind] in Hret.
  destruct (pack_bits (add_padding encoded_data)); [|done].
  cbn [mbind option_bind _serialize_tree] in Hret.
  unfold pack_I in Hret. case_decide; [lia|done].
Qed.

(** [decompress] on a container laid out as [compress] writes it. *)
Lemma decompress_container size_bytes padding_byte tree_bytes compressed_data
    tree :
  unpack_I size_bytes = Some (Z.of_nat (length tree_bytes)) ->
  pickle_loads tree_bytes = Some tree ->
  decompress pickle_loads
    (MAGIC ++ size_bytes ++ [padding_byte] ++ tree_bytes ++ compressed_data)
  = match _decode_data
            (strip_padding (byte_to_Z padding_byte)
               (unpack_bits compressed_data))
            (_deserialize_tree tree) with
    | None => mkOutcome false (Some DecompressError) None
    | Some decoded_data => mkOutcome true None (Some decoded_data)
    end.
Proof.
  intros Hsize Hloads.
  destruct size_bytes as [|b0 [|b1 [|b2 [|b3 [|??]]]]]; try done.
  unfold decompress, read, MAGIC.
  cbn [take drop app]. rewrite decide_False by (by intros []).
  rewrite Hsize. cbn [mbind option_bind unpack_B].
  rewrite take_0, drop_0. cbn [mbind option_bind].
  rewrite Nat2Z.id, take_app_length, drop_app_length, Hloads.
  done.
Qed.
End PickleFacts.

(** ** A concrete serializer

  The statements below hold for any [pickle_dumps] and [pickle_loads] such
  that loading what was dumped gives the value back.  This prefix encoding
  of [tree_data] is one such pair; it instantiates them on examples. *)

Fixpoint prefix_dumps (t : tree_data) : list byte :=
  match t with
  | TNone => [x00]
  | TLeaf c => [x01; c]
  | TInternal l r => x02 :: prefix_dumps l ++ prefix_dumps r
  end.

Fixpoint prefix_parse (fuel : nat) (b : list byte)
  : option (tree_data * list byte) :=
  match fuel with
  | O => None
  | S fuel =>
      match b with
      | x00 :: b => Some (TNone, b)
      | x01 :: c :: b => Some (TLeaf c, b)
      | x02 :: b =>
          '(l, b) ← prefix_parse fuel b;
          '(r, b) ← prefix_parse fuel b;
          Some (TInternal l r, b)
      | _ => None
      end
  end.

Definition prefix_loads (b : list byte) : option tree_data :=
  match prefix_parse (length b) b with
  | Some (t, []) => Some t
  | _ => None
  end.

Lemma prefix_parse_dumps t : forall (fuel : nat) rest,
  (length (prefix_dumps t) <= fuel)%nat ->
  prefix_parse fuel (prefix_dumps t ++ rest) = Some (t, rest).
Proof.
  induction t as [|c|l IHl r IHr]; intros [|fuel] rest Hfuel;
    simpl in *; try lia; try done.
  rewrite length_app in Hfuel. rewrite <-(assoc (++)).
  rewrite IHl by lia. simpl. rewrite IHr by lia. done.
Qed.

Lemma prefix_loads_dumps t : prefix_loads (prefix_dumps t) = Some t.
Proof.
  unfold prefix_loads.
  rewrite <-(right_id [] (++) (prefix_dumps t)) at 2.
  by rewrite prefix_parse_dumps.
Qed.

(** The inputs of the examples. *)
Definition aaaabbbc : list byte := [x61; x61; x61; x61; x62; x62; x62; x63].
Definition eight_A : list byte := replicate 8 x41.

(** ** The properties of the specification *)

(** The round trip on non-empty data whose pickled tree fits. *)
Lemma roundtrip_of_nonempty
    (pickle_dumps : tree_data -> list byte)
    (pickle_loads : list byte -> option tree_data) (data : list byte) :
  (forall t, pickle_loads (pickle_dumps t) = Some t) ->
  data ≠ [] -> tree_fits pickle_dumps data ->
  exists container,
    compress pickle_dumps data = mkOutcome true None (Some container)
    /\ decompress pickle_loads container = mkOutcome true None (Some data).
Proof.
  intros Hpickle Hne Hfits.
  destruct (compress_spec pickle_dumps data Hne Hfits)
    as (root & encoded_data & compressed_data & size_bytes & padding_byte
        & Henc & _ & Hunpack & Htree & Hsize & _ & Hpad & Hcompress).
  destruct (encode_input_spec data Hne)
    as (root' & encoded_data' & _ & Henc' & Hroot & Hwf & _ & _ & Hdec).
  rewrite Henc in Henc'. injection Henc' as <- <-.
  destruct (deserialize_serialize_node root Hwf)
    as (node' & Hde & _ & Hchar & Hpaths).
  eexists. split; [exact Hcompress|].
  rewrite (decompress_container pickle_loads size_bytes padding_byte
             (pickled_tree pickle_dumps data) compressed_data
             (serialize_node root) Hsize);
    [|by rewrite Htree].
  rewrite Hpad, Hunpack, strip_add_padding, Hde.
  rewrite (Hdec node'); [done|congruence|done].
Qed.

(** C1 (round-trip identity).  Whenever [compress] succeeds on [data],
  which it does on every non-empty [data] whose pickled tree fits the
  length field, [decompress] on the container it wrote succeeds and writes
  exactly [data]. *)
Theorem compress_decompress_roundtrip
    (pickle_dumps : tree_data -> list byte)
    (pickle_loads : list byte -> option tree_data) (data : list byte) :
  (forall t, pickle_loads (pickle_dumps t) = Some t) ->
  (returned (compress pickle_dumps data) = true
   <-> data ≠ [] /\ tree_fits pickle_dumps data)
  /\ (returned (compress pickle_dumps data) = true ->
      exists container,
        compress pickle_dumps data = mkOutcome true None (Some container)
        /\ decompress pickle_loads container
           = mkOutcome true None (Some data)).
Proof.
  intros Hpickle.
  assert (Hok : data ≠ [] -> tree_fits pickle_dumps data ->
    exists container,
      compress pickle_dumps data = mkOutcome true None (Some container)
      /\ decompress pickle_loads container = mkOutcome true None (Some data)).
  { intros Hne Hfits.
    destruct (compress_spec pickle_dumps data Hne Hfits)
      as (root & encoded_data & compressed_data & size_bytes & padding_byte
          & Henc & _ & Hunpack & Htree & Hsize & _ & Hpad & Hcompress).
    destruct (encode_input_spec data Hne)
      as (root' & encoded_data' & _ & Henc' & Hroot & Hwf & _ & _ & Hdec).
    rewrite Henc in Henc'. injection Henc' as <- <-.
    destruct (deserialize_serialize_node root Hwf)
      as (node' & Hde & _ & Hchar & Hpaths).
    eexists. split; [exact Hcompress|].
    rewrite (decompress_container pickle_loads size_bytes padding_byte
               (pickled_tree pickle_dumps data) compressed_data
               (serialize_node root) Hsize);
      [|by rewrite Htree].
    rewrite Hpad, Hunpack, strip_add_padding, Hde.
    rewrite (Hdec node'); [done|congruence|done]. }
  split; [split|].
  - apply compress_returned_true.
  - intros [Hne Hfits]. destruct (Hok Hne Hfits) as (? & -> & _). done.
  - intros [Hne Hfits]%compress_returned_true. by apply Hok.
Qed.

Lemma compress_decompress_roundtrip_witness :
  exists container,
    compress prefix_dumps aaaabbbc = mkOutcome true None (Some container)
    /\ decompress prefix_loads container
       = mkOutcome true None (Some aaaabbbc).
Proof.
  apply (compress_decompress_roundtrip prefix_dumps prefix_loads aaaabbbc
           prefix_loads_dumps).
  vm_compute. reflexivity.
Defined.

(** C7 (format rejection).  On a buffer whose first 4 bytes are not the
  magic tag, [decompress] returns [False] with the format diagnostic,
  whatever the rest of the buffer and the unpickler are, and never opens
  the output file. *)
Theorem decompress_rejects_bad_magic
    (pickle_loads : list byte -> option tree_data) (input : list byte) :
  take 4 input ≠ MAGIC ->
  decompress pickle_loads input = mkOutcome false (Some NotHZIPFormat) None.
Proof.
  intros Hmagic. unfold decompress, read. by rewrite decide_True.
Qed.

Lemma decompress_rejects_bad_magic_witness :
  decompress prefix_loads [x48; x5a; x49; x51; x00; x00; x00; x00; x08]
  = mkOutcome false (Some NotHZIPFormat) None.
Proof.
  apply (decompress_rejects_bad_magic prefix_loads). vm_compute. discriminate.
Defined.

(** C9 (empty input).  [compress] on zero-length input returns [False],
  opens no output file, and prints the empty-input diagnostic, which is
  neither the one of a format mismatch nor the one of a caught
  exception. *)
Theorem compress_rejects_empty_input
    (pickle_dumps : tree_data -> list byte) :
  compress pickle_dumps [] = mkOutcome false (Some EmptyInputFile) None
  /\ EmptyInputFile ≠ NotHZIPFormat
  /\ EmptyInputFile ≠ CompressError
  /\ forall pickle_loads input,
       printed (decompress pickle_loads input)
       ≠ printed (compress pickle_dumps []).
Proof.
  split_and!; [done..|]. intros pickle_loads input. unfold decompress.
  destruct (read 4 input) as [magic f]. case_decide; [done|].
  simpl. by case_match.
Qed.

(** C4 (prefix-free codes).  For every non-empty frequency table the tree
  is built without an exception, every byte of the table gets a code, and
  no code of the table is a prefix of the code of another byte. *)
Theorem build_codes_is_prefix_free (freq_table : list (byte * Z)) :
  freq_table ≠ [] ->
  exists root,
    _build_huffman_tree freq_table = Some (Some root)
    /\ (forall ch, ch ∈ freq_table.*1 <->
                   is_Some (_build_codes (Some root) !! ch))
    /\ prefix_free (_build_codes (Some root)).
Proof.
  intros Hne.
  destruct (build_huffman_tree_spec freq_table Hne)
    as (root & Hbuild & Hroot & Hleaves & _).
  exists root. split_and!; [done| |by apply build_codes_prefix_free].
  intros ch. rewrite <-Hleaves.
  destruct (build_codes_lookup root ch Hroot) as [Hin Hlk]. split.
  - intros Hch. destruct (Hin Hch) as (p & _ & _ & Hp). by exists p.
  - intros [s Hs]. destruct (Hlk s Hs) as [Hp _].
    apply list_elem_of_fmap. by exists (ch, s).
Qed.

Lemma build_codes_is_prefix_free_witness :
  exists root,
    _build_huffman_tree [(x61, 4); (x62, 3); (x63, 1)] = Some (Some root)
    /\ (forall ch, ch ∈ [(x61, 4); (x62, 3); (x63, 1)].*1 <->
                   is_Some (_build_codes (Some root) !! ch))
    /\ prefix_free (_build_codes (Some root)).
Proof.
  apply (build_codes_is_prefix_free [(x61, 4); (x62, 3); (x63, 1)]).
  discriminate.
Defined.

(** C5 (tree serialization).  For the tree built from any non-empty
  frequency table, deserializing its serialization gives a tree of the
  same shape with the same bytes on its leaves (and all weights 0). *)
Theorem deserialize_serialize_built_tree (freq_table : list (byte * Z)) :
  freq_table ≠ [] ->
  exists root root',
    _build_huffman_tree freq_table = Some (Some root)
    /\ _deserialize_tree (_serialize_tree (Some root)) = Some root'
    /\ same_shape root root' = true
    /\ leaves root' = leaves root.
Proof.
  intros Hne.
  destruct (build_huffman_tree_spec freq_table Hne)
    as (root & Hbuild & _ & _ & Hshape).
  assert (Hwf : well_formed root = true).
  { destruct freq_table as [|item [|item' items]]; [done| |].
    - by subst root.
    - by apply full_well_formed. }
  destruct (deserialize_serialize_node root Hwf)
    as (root' & Hde & Hsame & _ & Hpaths).
  exists root, root'. split_and!; [done..|]. unfold leaves. by rewrite Hpaths.
Qed.

Lemma deserialize_serialize_built_tree_witness :
  exists root root',
    _build_huffman_tree [(x61, 4); (x62, 3); (x63, 1)] = Some (Some root)
    /\ _deserialize_tree (_serialize_tree (Some root)) = Some root'
    /\ same_shape root root' = true
    /\ leaves root' = leaves root.
Proof.
  apply (deserialize_serialize_built_tree [(x61, 4); (x62, 3); (x63, 1)]).
  discriminate.
Defined.

(** C6 (degenerate alphabet).  For [n > 0] copies of one byte [c], the
  tree is an internal root whose only child is the leaf of [c], on the
  left; the code table gives [c] the code "0" and nothing else; and
  [decompress] gives the input back from the container [compress]
  wrote. *)
Theorem single_byte_input
    (pickle_dumps : tree_data -> list byte)
    (pickle_loads : list byte -> option tree_data) (c : byte) (n : nat) :
  (forall t, pickle_loads (pickle_dumps t) = Some t) ->
  (0 < n)%nat ->
  tree_fits pickle_dumps (replicate n c) ->
  let data := replicate n c in
  let root :=
    mkNode None (Z.of_nat n)
      (Some (mkNode (Some c) (Z.of_nat n) None None)) None in
  _build_huffman_tree (_build_frequency_table data) = Some (Some root)
  /\ _build_codes (Some root) = {[ c := [c0] ]}
  /\ exists container,
       compress pickle_dumps data = mkOutcome true None (Some container)
       /\ decompress pickle_loads container
          = mkOutcome true None (Some data).
Proof.
  intros Hpickle Hn Hfits data root. split_and!.
  - destruct n as [|n]; [lia|]. subst data.
    unfold _build_frequency_table. by rewrite Counter_replicate.
  - done.
  - apply (roundtrip_of_nonempty pickle_dumps pickle_loads data Hpickle);
      [|done].
    subst data. destruct n; [lia|done].
Qed.

Lemma single_byte_input_witness :
  _build_huffman_tree (_build_frequency_table (replicate 1000 x41))
  = Some (Some (mkNode None 1000
                  (Some (mkNode (Some x41) 1000 None None)) None))
  /\ _build_codes
       (Some (mkNode None 1000
                (Some (mkNode (Some x41) 1000 None None)) None))
     = {[ x41 := [c0] ]}
  /\ exists container,
       compress prefix_dumps (replicate 1000 x41)
       = mkOutcome true None (Some container)
       /\ decompress prefix_loads container
          = mkOutcome true None (Some (replicate 1000 x41)).
Proof.
  apply (single_byte_input prefix_dumps prefix_loads x41 1000
           prefix_loads_dumps).
  - lia.
  - vm_compute. reflexivity.
Defined.

(** C8 (concrete scenario).  On [b"aaaabbbc"] the code of 'a' is the
  shortest of the table (strictly shorter than the two others) and no code
  is longer than the code of 'c'; the encoded bit-string, before padding,
  has [4*len(code_a) + 3*len(code_b) + 1*len(code_c)] bits; and
  [decompress] gives [b"aaaabbbc"] back from the container. *)
Theorem aaaabbbc_scenario
    (pickle_dumps : tree_data -> list byte)
    (pickle_loads : list byte -> option tree_data) :
  (forall t, pickle_loads (pickle_dumps t) = Some t) ->
  tree_fits pickle_dumps aaaabbbc ->
  exists root encoded_data code_a code_b code_c,
    encode_input aaaabbbc = Some (Some root, encoded_data)
    /\ _build_codes (Some root) !! x61 = Some code_a
    /\ _build_codes (Some root) !! x62 = Some code_b
    /\ _build_codes (Some root) !! x63 = Some code_c
    /\ (length code_a < length code_b)%nat
    /\ (length code_a < length code_c)%nat
    /\ (forall ch code, _build_codes (Some root) !! ch = Some code ->
          (length code_a <= length code <= length code_c)%nat)
    /\ length encoded_data
       = (4 * length code_a + 3 * length code_b + 1 * length code_c)%nat
    /\ exists container,
         compress pickle_dumps aaaabbbc
         = mkOutcome true None (Some container)
         /\ decompress pickle_loads container
            = mkOutcome true None (Some aaaabbbc).
Proof.
  intros Hpickle Hfits.
  exists (mkNode None 8 (Some (mkNode (Some x61) 4 None None))
            (Some (mkNode None 4 (Some (mkNode (Some x63) 1 None None))
                     (Some (mkNode (Some x62) 3 None None))))),
    [c0; c0; c0; c0; c1; c1; c1; c1; c1; c1; c1; c0],
    [c0], [c1; c1], [c1; c0].
  split; [vm_compute; reflexivity|].
  split; [vm_compute; reflexivity|].
  split; [vm_compute; reflexivity|].
  split; [vm_compute; reflexivity|].
  split; [simpl; lia|]. split; [simpl; lia|].
  split; [|split; [reflexivity|]].
  - intros ch code.
    replace (_build_codes _)
      with (<[x61 := [c0]]> (<[x62 := [c1; c1]]>
              (<[x63 := [c1; c0]]> (∅ : gmap byte bits))))
      by (vm_compute; reflexivity).
    rewrite !lookup_insert_Some, lookup_empty.
    intros [[_ <-]|[_ [[_ <-]|[_ [[_ <-]|[_ ?]]]]]]; simpl; try lia; done.
  - by apply (roundtrip_of_nonempty pickle_dumps pickle_loads aaaabbbc
                Hpickle).
Qed.

Lemma aaaabbbc_scenario_witness :
  exists root encoded_data code_a code_b code_c,
    encode_input aaaabbbc = Some (Some root, encoded_data)
    /\ _build_codes (Some root) !! x61 = Some code_a
    /\ _build_codes (Some root) !! x62 = Some code_b
    /\ _build_codes (Some root) !! x63 = Some code_c
    /\ (length code_a < length code_b)%nat
    /\ (length code_a < length code_c)%nat
    /\ (forall ch code, _build_codes (Some root) !! ch = Some code ->
          (length code_a <= length code <= length code_c)%nat)
    /\ length encoded_data
       = (4 * length code_a + 3 * length code_b + 1 * length code_c)%nat
    /\ exists container,
         compress prefix_dumps aaaabbbc
         = mkOutcome true None (Some container)
         /\ decompress prefix_loads container
            = mkOutcome true None (Some aaaabbbc).
Proof.
  apply (aaaabbbc_scenario prefix_dumps prefix_loads prefix_loads_dumps).
  vm_compute. reflexivity.
Defined.

(** ** The padding byte *)

(** Where the fields of a container lie. *)
Lemma container_layout (size_bytes : list byte) (padding_byte : byte)
    (tree_bytes compressed_data : list byte) :
  length size_bytes = 4%nat ->
  let container :=
    MAGIC ++ size_bytes ++ [padding_byte] ++ tree_bytes ++ compressed_data in
  container !! 8%nat = Some padding_byte
  /\ drop (9 + length tree_bytes) container = compressed_data.
Proof.
  intros Hlen.
  destruct size_bytes as [|b0 [|b1 [|b2 [|b3 [|??]]]]]; try done.
  split; [done|]. unfold MAGIC. cbn [app].
  change (9 + length tree_bytes)%nat
    with (S (S (S (S (S (S (S (S (S (length tree_bytes)))))))))).
  cbn [drop]. by rewrite drop_app_length.
Qed.

(** The bits [compress] appends are as many zeros as the padding byte
  says, except that the byte 8 stands for none. *)
Lemma add_padding_appended s :
  add_padding s = s ++ replicate (padding_of s mod 8) c0.
Proof.
  unfold add_padding. pose proof (padding_of_range s).
  destruct (decide (padding_of s ≠ 8%nat)) as [Hp|Hp].
  - by rewrite Nat.mod_small by lia.
  - replace (padding_of s) with 8%nat by lia. simpl.
    by rewrite (right_id [] (++)).
Qed.

(** What [decompress] returns once [_decode_data] has returned or raised. *)
Definition decode_outcome (decoded : option (list byte)) : outcome :=
  match decoded with
  | None => mkOutcome false (Some DecompressError) None
  | Some decoded_data => mkOutcome true None (Some decoded_data)
  end.

(** What [decompress] does with the padding byte of a container: for the
  byte 8 it decodes all the bits of the payload, for any other byte [p] the
  bits [[:-p]] of the payload. *)
Lemma decompress_padding_byte
    (pickle_loads : list byte -> option tree_data)
    (size_bytes : list byte) (padding_byte : byte)
    (tree_bytes compressed_data : list byte) (tree : tree_data) :
  unpack_I size_bytes = Some (Z.of_nat (length tree_bytes)) ->
  pickle_loads tree_bytes = Some tree ->
  decompress pickle_loads
    (MAGIC ++ size_bytes ++ [padding_byte] ++ tree_bytes ++ compressed_data)
  = decode_outcome
      (_decode_data
         (if decide (byte_to_Z padding_byte = 8)
          then unpack_bits compressed_data
          else slice_to_neg (unpack_bits compressed_data)
                 (Z.to_nat (byte_to_Z padding_byte)))
         (_deserialize_tree tree)).
Proof.
  intros Hsize Hloads.
  rewrite (decompress_container pickle_loads size_bytes padding_byte
             tree_bytes compressed_data tree Hsize Hloads).
  unfold strip_padding, decode_outcome.
  destruct (decide (byte_to_Z padding_byte = 8)) as [H8|H8].
  - by rewrite decide_False by (by intros ?).
  - by rewrite decide_True.
Qed.

(** On the container [compress] wrote, [decompress] hands exactly the
  encoded bits to [_decode_data]. *)
Lemma decompress_compressed
    (pickle_dumps : tree_data -> list byte)
    (pickle_loads : list byte -> option tree_data) (data : list byte)
    (root : Node) (encoded_data : bits)
    (compressed_data size_bytes : list byte) (padding_byte : byte) :
  (forall t, pickle_loads (pickle_dumps t) = Some t) ->
  pickled_tree pickle_dumps data = pickle_dumps (serialize_node root) ->
  unpack_I size_bytes
  = Some (Z.of_nat (length (pickled_tree pickle_dumps data))) ->
  byte_to_Z padding_byte = Z.of_nat (padding_of encoded_data) ->
  unpack_bits compressed_data = add_padding encoded_data ->
  decompress pickle_loads
    (MAGIC ++ size_bytes ++ [padding_byte]
     ++ pickled_tree pickle_dumps data ++ compressed_data)
  = decode_outcome
      (_decode_data encoded_data (_deserialize_tree (serialize_node root))).
Proof.
  intros Hpickle Htree Hsize Hpad Hunpack.
  rewrite (decompress_container pickle_loads size_bytes padding_byte
             (pickled_tree pickle_dumps data) compressed_data
             (serialize_node root) Hsize);
    [|by rewrite Htree].
  by rewrite Hpad, Hunpack, strip_add_padding.
Qed.

(** C10 (the padding byte as written).  For every non-empty input the byte
  at offset 8 of the container is [8 - len(encoded_data) % 8]; it lies in
  [1, 8] and is never 0.  When it is 8 nothing was appended to the
  encoded bits.  [decompress], on any container, drops trailing bits only
  when the byte differs from 8; on the container [compress] wrote it
  therefore decodes exactly the encoded bits, and writes the data back. *)
Theorem padding_byte_invariant
    (pickle_dumps : tree_data -> list byte)
    (pickle_loads : list byte -> option tree_data) (data : list byte) :
  (forall t, pickle_loads (pickle_dumps t) = Some t) ->
  data ≠ [] -> tree_fits pickle_dumps data ->
  exists root encoded_data container padding_byte,
    encode_input data = Some (root, encoded_data)
    /\ compress pickle_dumps data = mkOutcome true None (Some container)
    /\ container !! 8%nat = Some padding_byte
    /\ byte_to_Z padding_byte = 8 - Z.of_nat (length encoded_data mod 8)
    /\ 1 <= byte_to_Z padding_byte <= 8
    /\ byte_to_Z padding_byte ≠ 0
    /\ (byte_to_Z padding_byte = 8 -> add_padding encoded_data = encoded_data)
    /\ (forall s, strip_padding 8 s = s)
    /\ strip_padding (byte_to_Z padding_byte)
         (unpack_bits
            (drop (9 + length (pickled_tree pickle_dumps data)) container))
       = encoded_data
    /\ (forall size_bytes p tree_bytes compressed_data tree,
          unpack_I size_bytes = Some (Z.of_nat (length tree_bytes)) ->
          pickle_loads tree_bytes = Some tree ->
          decompress pickle_loads
            (MAGIC ++ size_bytes ++ [p] ++ tree_bytes ++ compressed_data)
          = decode_outcome
              (_decode_data
                 (if decide (byte_to_Z p = 8)
                  then unpack_bits compressed_data
                  else slice_to_neg (unpack_bits compressed_data)
                         (Z.to_nat (byte_to_Z p)))
                 (_deserialize_tree tree)))
    /\ decompress pickle_loads container
       = decode_outcome
           (_decode_data encoded_data
              (_deserialize_tree (_serialize_tree root)))
    /\ decompress pickle_loads container = mkOutcome true None (Some data).
Proof.
  intros Hpickle Hne Hfits.
  destruct (compress_spec pickle_dumps data Hne Hfits)
    as (root & encoded_data & compressed_data & size_bytes & padding_byte
        & Henc & _ & Hunpack & Htree & Hsize & Hlen & Hpad & Hcompress).
  destruct (container_layout size_bytes padding_byte
              (pickled_tree pickle_dumps data) compressed_data Hlen)
    as [Hbyte Hpayload].
  pose proof (padding_of_range encoded_data) as Hrange.
  exists (Some root), encoded_data,
    (MAGIC ++ size_bytes ++ [padding_byte]
     ++ pickled_tree pickle_dumps data ++ compressed_data), padding_byte.
  split; [done|]. split; [exact Hcompress|]. split; [done|].
  split; [|split; [lia|split; [lia|split; [|split; [done|split;
    [|split; [|split]]]]]]].
  - rewrite Hpad. unfold padding_of.
    pose proof (Nat.mod_upper_bound (length encoded_data) 8). lia.
  - intros H8. unfold add_padding. rewrite decide_False; [done|lia].
  - rewrite Hpayload, Hpad, Hunpack. apply strip_add_padding.
  - intros. by apply decompress_padding_byte.
  - by apply (decompress_compressed pickle_dumps).
  - destruct (roundtrip_of_nonempty pickle_dumps pickle_loads data
                Hpickle Hne Hfits) as (container & Hc & Hd).
    rewrite Hcompress in Hc. by injection Hc as <-.
Qed.

Lemma padding_byte_invariant_witness :
  exists root encoded_data container padding_byte,
    encode_input aaaabbbc = Some (root, encoded_data)
    /\ compress prefix_dumps aaaabbbc = mkOutcome true None (Some container)
    /\ container !! 8%nat = Some padding_byte
    /\ byte_to_Z padding_byte = 8 - Z.of_nat (length encoded_data mod 8)
    /\ 1 <= byte_to_Z padding_byte <= 8
    /\ byte_to_Z padding_byte ≠ 0
    /\ (byte_to_Z padding_byte = 8 -> add_padding encoded_data = encoded_data)
    /\ (forall s, strip_padding 8 s = s)
    /\ strip_padding (byte_to_Z padding_byte)
         (unpack_bits
            (drop (9 + length (pickled_tree prefix_dumps aaaabbbc)) container))
       = encoded_data
    /\ (forall size_bytes p tree_bytes compressed_data tree,
          unpack_I size_bytes = Some (Z.of_nat (length tree_bytes)) ->
          prefix_loads tree_bytes = Some tree ->
          decompress prefix_loads
            (MAGIC ++ size_bytes ++ [p] ++ tree_bytes ++ compressed_data)
          = decode_outcome
              (_decode_data
                 (if decide (byte_to_Z p = 8)
                  then unpack_bits compressed_data
                  else slice_to_neg (unpack_bits compressed_data)
                         (Z.to_nat (byte_to_Z p)))
                 (_deserialize_tree tree)))
    /\ decompress prefix_loads container
       = decode_outcome
           (_decode_data encoded_data
              (_deserialize_tree (_serialize_tree root)))
    /\ decompress prefix_loads container
       = mkOutcome true None (Some aaaabbbc).
Proof.
  apply (padding_byte_invariant prefix_dumps prefix_loads aaaabbbc
           prefix_loads_dumps).
  - discriminate.
  - vm_compute. reflexivity.
Defined.

(** C2, as the code has it.  For every non-empty input the padding count
  written at offset 8 is [8 - len(encoded_data) % 8] and lies in [1, 8].
  Below 8 it is the number of zero bits appended to the encoded
  bit-string; when the length is already a multiple of 8 the count written
  is 8 and no bit is appended. *)
Theorem padding_count_written
    (pickle_dumps : tree_data -> list byte) (data : list byte) :
  data ≠ [] -> tree_fits pickle_dumps data ->
  exists root encoded_data container padding_byte appended,
    encode_input data = Some (root, encoded_data)
    /\ compress pickle_dumps data = mkOutcome true None (Some container)
    /\ container !! 8%nat = Some padding_byte
    /\ unpack_bits
         (drop (9 + length (pickled_tree pickle_dumps data)) container)
       = encoded_data ++ replicate appended c0
    /\ 1 <= byte_to_Z padding_byte <= 8
    /\ (byte_to_Z padding_byte < 8 ->
        Z.of_nat appended = byte_to_Z padding_byte)
    /\ ((length encoded_data mod 8 = 0)%nat <-> byte_to_Z padding_byte = 8)
    /\ (byte_to_Z padding_byte = 8 -> appended = 0%nat).
Proof.
  intros Hne Hfits.
  destruct (compress_spec pickle_dumps data Hne Hfits)
    as (root & encoded_data & compressed_data & size_bytes & padding_byte
        & Henc & _ & Hunpack & _ & _ & Hlen & Hpad & Hcompress).
  destruct (container_layout size_bytes padding_byte
              (pickled_tree pickle_dumps data) compressed_data Hlen)
    as [Hbyte Hpayload].
  pose proof (padding_of_range encoded_data) as Hrange.
  pose proof (padding_of_8 encoded_data) as H8.
  exists (Some root), encoded_data,
    (MAGIC ++ size_bytes ++ [padding_byte]
     ++ pickled_tree pickle_dumps data ++ compressed_data), padding_byte,
    (padding_of encoded_data mod 8)%nat.
  split; [done|]. split; [exact Hcompress|]. split; [done|].
  split; [|split; [lia|split; [|split]]].
  - rewrite Hpayload, Hunpack. apply add_padding_appended.
  - intros Hlt. rewrite Nat.mod_small by lia. lia.
  - rewrite <-H8. lia.
  - intros Heq. replace (padding_of encoded_data) with 8%nat by lia. done.
Qed.

Lemma padding_count_written_witness :
  exists root encoded_data container padding_byte appended,
    encode_input aaaabbbc = Some (root, encoded_data)
    /\ compress prefix_dumps aaaabbbc = mkOutcome true None (Some container)
    /\ container !! 8%nat = Some padding_byte
    /\ unpack_bits
         (drop (9 + length (pickled_tree prefix_dumps aaaabbbc)) container)
       = encoded_data ++ replicate appended c0
    /\ 1 <= byte_to_Z padding_byte <= 8
    /\ (byte_to_Z padding_byte < 8 ->
        Z.of_nat appended = byte_to_Z padding_byte)
    /\ ((length encoded_data mod 8 = 0)%nat <-> byte_to_Z padding_byte = 8)
    /\ (byte_to_Z padding_byte = 8 -> appended = 0%nat).
Proof.
  apply (padding_count_written prefix_dumps aaaabbbc).
  - discriminate.
  - vm_compute. reflexivity.
Defined.

(** C2 as stated fails on eight copies of "A": the encoded bit-string has
  8 bits, no bit is appended, and the padding count written is 8, which
  is neither 0 nor in [0, 7] nor the number of bits appended. *)
Lemma padding_count_written_counterexample :
  exists root encoded_data container padding_byte,
    encode_input eight_A = Some (root, encoded_data)
    /\ (length encoded_data mod 8 = 0)%nat
    /\ compress prefix_dumps eight_A = mkOutcome true None (Some container)
    /\ container !! 8%nat = Some padding_byte
    /\ byte_to_Z padding_byte = 8
    /\ ¬ (0 <= byte_to_Z padding_byte <= 7)
    /\ unpack_bits
         (drop (9 + length (pickled_tree prefix_dumps eight_A)) container)
       = encoded_data ++ replicate 0 c0
    /\ byte_to_Z padding_byte ≠ 0.
Proof.
  eexists _, _, _, _.
  split; [vm_compute; reflexivity|].
  split; [vm_compute; reflexivity|].
  split; [vm_compute; reflexivity|].
  split; [vm_compute; reflexivity|].
  split; [vm_compute; reflexivity|].
  split; [vm_compute; intros [_ H]; by apply H|].
  split; [vm_compute; reflexivity|].
  vm_compute. discriminate.
Qed.

(** C3, as the code has it.  For every input whose encoded bit-string has
  a multiple of 8 bits, [compress] appends nothing: the payload unpacks to
  exactly the encoded bits, and the padding count written is 8.  On this
  container [decompress] strips nothing: it decodes all the bits of the
  payload, which are the encoded bits with no extra zero bits after them,
  and writes the data back. *)
Theorem byte_aligned_padding
    (pickle_dumps : tree_data -> list byte)
    (pickle_loads : list byte -> option tree_data) (data : list byte)
    (root : option Node) (encoded_data : bits) :
  (forall t, pickle_loads (pickle_dumps t) = Some t) ->
  tree_fits pickle_dumps data ->
  encode_input data = Some (root, encoded_data) ->
  (length encoded_data mod 8 = 0)%nat ->
  data ≠ [] ->
  exists container padding_byte,
    compress pickle_dumps data = mkOutcome true None (Some container)
    /\ container !! 8%nat = Some padding_byte
    /\ byte_to_Z padding_byte = 8
    /\ add_padding encoded_data = encoded_data
    /\ unpack_bits
         (drop (9 + length (pickled_tree pickle_dumps data)) container)
       = encoded_data
    /\ strip_padding (byte_to_Z padding_byte)
         (unpack_bits
            (drop (9 + length (pickled_tree pickle_dumps data)) container))
       = encoded_data
    /\ decompress pickle_loads container
       = decode_outcome
           (_decode_data
              (unpack_bits
                 (drop (9 + length (pickled_tree pickle_dumps data))
                    container))
              (_deserialize_tree (_serialize_tree root)))
    /\ decompress pickle_loads container
       = decode_outcome
           (_decode_data encoded_data
              (_deserialize_tree (_serialize_tree root)))
    /\ decompress pickle_loads container = mkOutcome true None (Some data).
Proof.
  intros Hpickle Hfits Henc Hmod Hne.
  destruct (compress_spec pickle_dumps data Hne Hfits)
    as (root' & encoded_data' & compressed_data & size_bytes & padding_byte
        & Henc' & _ & Hunpack & Htree & Hsize & Hlen & Hpad & Hcompress).
  rewrite Henc in Henc'. injection Henc' as -> <-.
  destruct (container_layout size_bytes padding_byte
              (pickled_tree pickle_dumps data) compressed_data Hlen)
    as [Hbyte Hpayload].
  apply padding_of_8 in Hmod.
  assert (Hsame : add_padding encoded_data = encoded_data).
  { unfold add_padding. rewrite decide_False; [done|lia]. }
  assert (Hdec : decompress pickle_loads
                   (MAGIC ++ size_bytes ++ [padding_byte]
                    ++ pickled_tree pickle_dumps data ++ compressed_data)
                 = decode_outcome
                     (_decode_data encoded_data
                        (_deserialize_tree (serialize_node root'))))
    by (by apply (decompress_compressed pickle_dumps)).
  exists (MAGIC ++ size_bytes ++ [padding_byte]
     ++ pickled_tree pickle_dumps data ++ compressed_data), padding_byte.
  split; [exact Hcompress|]. split; [done|]. split; [lia|].
  split; [done|]. split; [|split; [|split; [|split]]].
  - by rewrite Hpayload, Hunpack, Hsame.
  - rewrite Hpayload, Hpad, Hunpack. apply strip_add_padding.
  - by rewrite Hpayload, Hunpack, Hsame.
  - done.
  - destruct (roundtrip_of_nonempty pickle_dumps pickle_loads data
                Hpickle Hne Hfits) as (container & Hc & Hd).
    rewrite Hcompress in Hc. by injection Hc as <-.
Qed.

Lemma byte_aligned_padding_witness :
  exists container padding_byte,
    compress prefix_dumps eight_A = mkOutcome true None (Some container)
    /\ container !! 8%nat = Some padding_byte
    /\ byte_to_Z padding_byte = 8
    /\ add_padding (replicate 8 c0) = replicate 8 c0
    /\ unpack_bits
         (drop (9 + length (pickled_tree prefix_dumps eight_A)) container)
       = replicate 8 c0
    /\ strip_padding (byte_to_Z padding_byte)
         (unpack_bits
            (drop (9 + length (pickled_tree prefix_dumps eight_A)) container))
       = replicate 8 c0
    /\ decompress prefix_loads container
       = decode_outcome
           (_decode_data
              (unpack_bits
                 (drop (9 + length (pickled_tree prefix_dumps eight_A))
                    container))
              (_deserialize_tree
                 (_serialize_tree
                    (Some (mkNode None 8
                             (Some (mkNode (Some x41) 8 None None)) None)))))
    /\ decompress prefix_loads container
       = decode_outcome
           (_decode_data (replicate 8 c0)
              (_deserialize_tree
                 (_serialize_tree
                    (Some (mkNode None 8
                             (Some (mkNode (Some x41) 8 None None)) None)))))
    /\ decompress prefix_loads container
       = mkOutcome true None (Some eight_A).
Proof.
  apply (byte_aligned_padding prefix_dumps prefix_loads eight_A
           (Some (mkNode None 8 (Some (mkNode (Some x41) 8 None None)) None))
           (replicate 8 c0) prefix_loads_dumps).
  - vm_compute. reflexivity.
  - vm_compute. reflexivity.
  - vm_compute. reflexivity.
  - discriminate.
Defined.

(** C3 as stated fails on eight copies of "A": the encoded bit-string has
  8 bits; the payload holds these 8 bits and not 8 zero bits more; the
  padding count written is 8, not 0; and the bits [decompress] decodes are
  the 8 encoded bits, with nothing left after them: its result is that of
  decoding the encoded bits, not that of decoding them with 8 zero bits
  more. *)
Lemma byte_aligned_padding_counterexample :
  exists root encoded_data container padding_byte,
    encode_input eight_A = Some (root, encoded_data)
    /\ (length encoded_data mod 8 = 0)%nat
    /\ compress prefix_dumps eight_A = mkOutcome true None (Some container)
    /\ container !! 8%nat = Some padding_byte
    /\ byte_to_Z padding_byte ≠ 0
    /\ add_padding encoded_data ≠ encoded_data ++ replicate 8 c0
    /\ unpack_bits
         (drop (9 + length (pickled_tree prefix_dumps eight_A)) container)
       ≠ encoded_data ++ replicate 8 c0
    /\ strip_padding (byte_to_Z padding_byte)
         (unpack_bits
            (drop (9 + length (pickled_tree prefix_dumps eight_A)) container))
       ≠ encoded_data ++ replicate 8 c0
    /\ decompress prefix_loads container
       = decode_outcome
           (_decode_data encoded_data
              (_deserialize_tree (_serialize_tree root)))
    /\ decompress prefix_loads container
       ≠ decode_outcome
           (_decode_data (encoded_data ++ replicate 8 c0)
              (_deserialize_tree (_serialize_tree root))).
Proof.
  eexists _, _, _, _.
  split; [vm_compute; reflexivity|].
  split; [vm_compute; reflexivity|].
  split; [vm_compute; reflexivity|].
  split; [vm_compute; reflexivity|].
  split; [vm_compute; discriminate|].
  split; [vm_compute; discriminate|].
  split; [vm_compute; discriminate|].
  split; [vm_compute; discriminate|].
  split; [vm_compute; reflexivity|].
  vm_compute. discriminate.
Qed.

(** ** Further properties of the code *)

(** [d.get(k, 0)] on a table. *)
Fixpoint count_of (d : list (byte * Z)) (k : byte) : Z :=
  match d with
  | [] => 0
  | (k', v) :: d' => if decide (k' = k) then v else count_of d' k
  end.

(** The number of occurrences of [k] in [data]. *)
Definition occurrences (k : byte) (data : list byte) : nat :=
  length (filter (fun x => x = k) data).

Lemma count_of_counter_add c d k :
  count_of (counter_add c d) k
  = if decide (k = c) then count_of d k + 1 else count_of d k.
Proof.
  induction d as [|[k' v] d IH]; simpl.
  - destruct (decide (c = k)) as [->|Hne].
    + by rewrite decide_True.
    + by rewrite decide_False by congruence.
  - destruct (decide (k' = c)) as [->|Hne]; simpl.
    + destruct (decide (c = k)) as [->|Hne'].
      * by rewrite decide_True.
      * by rewrite decide_False by congruence.
    + destruct (decide (k' = k)) as [->|Hne'].
      * by rewrite decide_False by congruence.
      * apply IH.
Qed.

Lemma counter_add_NoDup c d : NoDup d.*1 -> NoDup (counter_add c d).*1.
Proof.
  induction d as [|[k v] d IH]; simpl.
  - intros _. apply NoDup_singleton.
  - intros [Hk Hd]%NoDup_cons. destruct (decide (k = c)) as [->|Hne]; simpl.
    + by apply NoDup_cons.
    + apply NoDup_cons. split; [|by apply IH].
      rewrite counter_add_keys. intros [->|?]; done.
Qed.

Lemma count_of_elem d k v : NoDup d.*1 -> (k, v) ∈ d -> count_of d k = v.
Proof.
  induction d as [|[k' v'] d IH]; simpl.
  - by intros _ ?%elem_of_nil.
  - intros [Hk Hd]%NoDup_cons [Heq|Hin]%elem_of_cons.
    + injection Heq as <- <-. by rewrite decide_True.
    + rewrite decide_False; [by apply IH|].
      intros ->. apply Hk. apply list_elem_of_fmap. by exists (k, v).
Qed.

Lemma Counter_NoDup data : NoDup (Counter data).*1.
Proof.
  unfold Counter.
  assert (H : forall d, NoDup d.*1 ->
                NoDup (foldl (fun d c => counter_add c d) d data).*1).
  { induction data as [|c data IH]; intros d Hd; [done|].
    simpl. by apply IH, counter_add_NoDup. }
  apply H. constructor.
Qed.

(** X1 ([Counter]).  The frequency table has one entry per distinct byte of
  the data, and the entry of a byte holds the number of its occurrences,
  which is at least 1. *)
Theorem frequency_table_counts (data : list byte) :
  NoDup (_build_frequency_table data).*1
  /\ (forall k, k ∈ (_build_frequency_table data).*1 <-> k ∈ data)
  /\ (forall k v, (k, v) ∈ _build_frequency_table data ->
        v = Z.of_nat (occurrences k data) /\ 1 <= v).
Proof.
  unfold _build_frequency_table.
  assert (Hfold : forall d,
    NoDup d.*1 ->
    NoDup (foldl (fun d c => counter_add c d) d data).*1
    /\ forall k, count_of (foldl (fun d c => counter_add c d) d data) k
                 = count_of d k + Z.of_nat (occurrences k data)).
  { induction data as [|c data IH]; intros d Hd; simpl.
    - split; [done|]. intros k. unfold occurrences. simpl. lia.
    - destruct (IH (counter_add c d) (counter_add_NoDup c d Hd)) as [Hnd Hc].
      split; [done|]. intros k. rewrite Hc, count_of_counter_add.
      unfold occurrences. rewrite filter_cons.
      destruct (decide (k = c)) as [->|Hne].
      + rewrite decide_True by done. simpl. lia.
      + rewrite decide_False by congruence. lia. }
  destruct (Hfold [] (NoDup_nil_2)) as [Hnd Hcount].
  split; [done|]. split; [apply Counter_keys|].
  intros k v Hin. rewrite <-(count_of_elem _ k v Hnd Hin).
  unfold Counter. rewrite Hcount. simpl. split; [done|].
  assert (Hk : k ∈ data).
  { apply Counter_keys. apply list_elem_of_fmap. by exists (k, v). }
  unfold occurrences.
  assert (Hf : k ∈ filter (fun x => x = k) data)
    by (by apply list_elem_of_filter).
  destruct (filter (fun x => x = k) data); [by apply elem_of_nil in Hf|].
  simpl. lia.
Qed.

(** X2 (one leaf and one code per distinct byte).  For non-empty data the
  tree has exactly one leaf for each distinct byte of the data, and the
  code table has an entry exactly for the bytes of the data; every code
  is a non-empty string of "0" and "1". *)
Theorem code_table_domain (data : list byte) :
  data ≠ [] ->
  exists root,
    _build_huffman_tree (_build_frequency_table data) = Some (Some root)
    /\ NoDup (leaves root)
    /\ (forall ch, ch ∈ leaves root <-> ch ∈ data)
    /\ (forall ch, is_Some (_build_codes (Some root) !! ch) <-> ch ∈ data)
    /\ (forall ch code, _build_codes (Some root) !! ch = Some code ->
          code ≠ [] /\ binary code).
Proof.
  intros Hne. unfold _build_frequency_table.
  destruct (build_huffman_tree_spec (Counter data) (Counter_nonempty data Hne))
    as (root & Hbuild & Hroot & Hleaves & _).
  pose proof (Counter_NoDup data) as Hnd.
  pose proof (Counter_keys data) as Hkeys.
  exists root. split; [done|]. split; [by rewrite Hleaves|].
  split; [intros ch; by rewrite Hleaves|]. split.
  - intros ch. rewrite <-Hkeys, <-Hleaves.
    destruct (build_codes_lookup root ch Hroot) as [Hin Hlk]. split.
    + intros [s Hs]. destruct (Hlk s Hs) as [Hp _].
      apply list_elem_of_fmap. by exists (ch, s).
    + intros Hch. destruct (Hin Hch) as (p & _ & _ & Hp). by exists p.
  - intros ch code Hlk.
    destruct (build_codes_lookup root ch Hroot) as [_ Hlk'].
    destruct (Hlk' code Hlk) as [Hp Hnil]. split; [done|].
    by apply (paths_binary root ch).
Qed.

Lemma code_table_domain_witness :
  exists root,
    _build_huffman_tree (_build_frequency_table aaaabbbc) = Some (Some root)
    /\ NoDup (leaves root)
    /\ (forall ch, ch ∈ leaves root <-> ch ∈ aaaabbbc)
    /\ (forall ch, is_Some (_build_codes (Some root) !! ch) <-> ch ∈ aaaabbbc)
    /\ (forall ch code, _build_codes (Some root) !! ch = Some code ->
          code ≠ [] /\ binary code).
Proof. apply (code_table_domain aaaabbbc). discriminate. Defined.

Lemma encode_data_Some (data : list byte) (codes : gmap byte bits)
    (encoded_data : bits) :
  _encode_data data codes = Some encoded_data ->
  encoded_data = concat ((fun ch => default [] (codes !! ch)) <$> data).
Proof.
  unfold _encode_data. revert encoded_data.
  induction data as [|c data IH]; simpl; intros encoded_data Henc.
  - by injection Henc as <-.
  - destruct (codes !! c) as [p|]; simpl in *; [|done].
    destruct (mapM (fun ch => codes !! ch) data) as [parts|];
      simpl in *; [|done].
    injection Henc as <-. f_equal. by apply IH.
Qed.

(** X3 (missing key).  [_encode_data] raises exactly when some byte of the
  data has no entry in the code table; otherwise it returns the codes of
  the bytes, concatenated in the order of the data. *)
Theorem encode_data_missing_key (data : list byte) (codes : gmap byte bits) :
  (_encode_data data codes = None
   <-> exists ch, ch ∈ data /\ codes !! ch = None)
  /\ (forall encoded_data, _encode_data data codes = Some encoded_data ->
        encoded_data
        = concat ((fun ch => default [] (codes !! ch)) <$> data)).
Proof.
  unfold _encode_data. split.
  - induction data as [|c data IH]; simpl.
    + split; [done|]. intros (ch & Hin & _). by apply elem_of_nil in Hin.
    + destruct (codes !! c) as [p|] eqn:Hc; simpl.
      * destruct (mapM (fun ch => codes !! ch) data) as [parts|] eqn:Hparts;
          simpl in *.
        -- split; [done|]. intros (ch & [->|Hin]%elem_of_cons & Hnone).
           ++ congruence.
           ++ destruct IH as [_ IH].
              assert (Hn : Some (concat parts) = None)
                by (apply IH; by exists ch).
              discriminate Hn.
        -- split; [|done]. intros _. destruct IH as [IH _].
           destruct (IH eq_refl) as (ch & Hin & Hnone).
           exists ch. split; [by right|done].
      * split; [|done]. intros _. exists c. split; [by left|done].
  - induction data as [|c data IH]; simpl; intros encoded_data Henc.
    + by injection Henc as <-.
    + destruct (codes !! c) as [p|]; simpl in *; [|done].
      destruct (mapM (fun ch => codes !! ch) data) as [parts|];
        simpl in *; [|done].
      injection Henc as <-. f_equal. by apply IH.
Qed.

(** X4 (serialization, the other way round).  Serializing the tree that
  [_deserialize_tree] builds from any serialized value gives that value
  back. *)
Theorem serialize_deserialize (data : tree_data) :
  _serialize_tree (_deserialize_tree data) = data.
Proof.
  induction data as [|c|l IHl r IHr]; simpl; [done..|].
  f_equal.
  - rewrite <-IHl at 2. by destruct (_deserialize_tree l).
  - rewrite <-IHr at 2. by destruct (_deserialize_tree r).
Qed.

Lemma int2_format_08b (b : byte) :
  (n ← int2 (format_08b b); byte_of_Z n) = Some b.
Proof. destruct b; vm_compute; reflexivity. Qed.

Lemma format_08b_binary (b : byte) :
  length (format_08b b) = 8%nat /\ binary (format_08b b).
Proof.
  split; [done|]. unfold format_08b, binary.
  apply Forall_fmap, Forall_true. intros k. simpl. destruct (Z.testbit _ _); auto.
Qed.

Lemma unpack_bits_binary (bs : list byte) :
  (length (unpack_bits bs) = 8 * length bs)%nat /\ binary (unpack_bits bs).
Proof.
  induction bs as [|b bs [IHlen IHbin]]; [by split; [|constructor]|].
  rewrite unpack_bits_cons. destruct (format_08b_binary b) as [Hl Hb]. split.
  - rewrite length_app, IHlen, Hl. simpl. lia.
  - by apply Forall_app.
Qed.

Lemma unpack_bits_inj (bs bs' : list byte) :
  unpack_bits bs = unpack_bits bs' -> bs = bs'.
Proof.
  revert bs'. induction bs as [|b bs IH]; intros [|b' bs'] Heq; try done.
  rewrite !unpack_bits_cons in Heq.
  apply app_inj_1 in Heq as [Hb Hbs]; [|done].
  f_equal; [|by apply IH].
  pose proof (int2_format_08b b) as H1. pose proof (int2_format_08b b') as H2.
  rewrite Hb in H1. congruence.
Qed.

(** X5 (bit packing, the other way round).  The bits [decompress] unpacks
  from any bytes are 8 binary digits per byte, and packing them as
  [compress] does never raises and gives the bytes back. *)
Theorem pack_unpack_bits (compressed_data : list byte) :
  pack_bits (unpack_bits compressed_data) = Some compressed_data
  /\ (length (unpack_bits compressed_data) = 8 * length compressed_data)%nat
  /\ binary (unpack_bits compressed_data).
Proof.
  destruct (unpack_bits_binary compressed_data) as [Hlen Hbin].
  split; [|done].
  destruct (unpack_pack_bits (unpack_bits compressed_data) Hbin)
    as (bs & Hpack & Hun).
  { rewrite Hlen, Nat.mul_comm. apply Nat.Div0.mod_mul. }
  rewrite Hpack. f_equal. by apply unpack_bits_inj.
Qed.

(** X6 (truncated header).  A buffer that starts with the magic tag but
  has fewer than the 9 bytes of the header makes [decompress] return
  [False] through its exception handler, without opening the output file;
  this holds whatever the unpickler does. *)
Theorem decompress_truncated_header
    (pickle_loads : list byte -> option tree_data) (input : list byte) :
  take 4 input = MAGIC -> (length input < 9)%nat ->
  decompress pickle_loads input
  = mkOutcome false (Some DecompressError) None.
Proof.
  intros Hmagic Hlen. unfold decompress, read. rewrite Hmagic.
  rewrite decide_False by (by intros []).
  destruct input as [|m0 [|m1 [|m2 [|m3 rest]]]]; try done.
  simpl in Hlen. cbn [drop].
  destruct rest as [|b0 [|b1 [|b2 [|b3 [|b4 rest]]]]];
    simpl in *; try done; lia.
Qed.

Lemma decompress_truncated_header_witness :
  decompress prefix_loads [x48; x5a; x49; x50; x03; x00; x00; x00]
  = mkOutcome false (Some DecompressError) None.
Proof.
  apply (decompress_truncated_header prefix_loads).
  - reflexivity.
  - simpl. lia.
Defined.

(** X7 (no partial output).  [decompress] writes the output file exactly
  when it returns [True]; on every failing path the file is never opened,
  and a diagnostic is printed exactly on those paths. *)
Theorem decompress_writes_iff_true
    (pickle_loads : list byte -> option tree_data) (input : list byte) :
  (returned (decompress pickle_loads input) = true
   <-> is_Some (written (decompress pickle_loads input)))
  /\ (returned (decompress pickle_loads input) = false
      <-> is_Some (printed (decompress pickle_loads input))).
Proof.
  unfold decompress. destruct (read 4 input) as [magic f].
  case_decide.
  - simpl. split; split; try done; by intros [? ?].
  - case_match; simpl; split; split; try done; try (by intros [? ?]);
      by eexists.
Qed.

(** The tree [_build_huffman_tree] makes for a single byte value. *)
Definition single_leaf_tree (c : byte) (f : Z) : Node :=
  mkNode None f (Some (mkNode (Some c) f None None)) None.

Lemma decode_loop_single_zeros (c : byte) (f : Z) (encoded_data : bits) :
  forall cur decoded,
  Forall (fun bit => bit = c0) encoded_data -> encoded_data ≠ [] ->
  cur = single_leaf_tree c f \/ cur = mkNode (Some c) f None None ->
  decode_loop encoded_data (single_leaf_tree c f) (Some cur) decoded
  = Some (Some (mkNode (Some c) f None None),
          decoded ++ pending cur ++ replicate (length encoded_data - 1) c).
Proof.
  induction encoded_data as [|bit rest IH]; intros cur decoded Hz Hne Hcur;
    [done|].
  apply Forall_cons in Hz as [-> Hz].
  assert (Hstep : decode_loop (c0 :: rest) (single_leaf_tree c f) (Some cur)
                    decoded
                  = decode_loop rest (single_leaf_tree c f)
                      (Some (mkNode (Some c) f None None))
                      (decoded ++ pending cur)).
  { destruct Hcur as [-> | ->]; simpl; [|done].
    by rewrite (right_id [] (++)). }
  rewrite Hstep. destruct rest as [|bit rest].
  - simpl. by rewrite (right_id [] (++)).
  - rewrite (IH _ _ Hz); [|done|by right].
    cbn [length].
    replace (S (S (length rest)) - 1)%nat with (S (length rest)) by lia.
    replace (S (length rest) - 1)%nat with (length rest) by lia.
    by rewrite <-(assoc (++)).
Qed.

Lemma decode_loop_single_other (c : byte) (f : Z) (encoded_data : bits) :
  forall cur decoded,
  ¬ Forall (fun bit => bit = c0) encoded_data ->
  cur = None \/ cur = Some (single_leaf_tree c f)
  \/ cur = Some (mkNode (Some c) f None None) ->
  decode_loop encoded_data (single_leaf_tree c f) cur decoded = None
  \/ exists decoded',
       decode_loop encoded_data (single_leaf_tree c f) cur decoded
       = Some (None, decoded').
Proof.
  induction encoded_data as [|bit rest IH]; intros cur decoded Hz Hcur.
  { exfalso. apply Hz. constructor. }
  destruct Hcur as [-> | Hcur]; [by left|].
  destruct (decide (bit = c0)) as [->|Hbit].
  - assert (Hrest : ¬ Forall (fun bit => bit = c0) rest).
    { intros H. apply Hz. by constructor. }
    destruct Hcur as [-> | ->]; simpl; apply IH; auto.
  - destruct Hcur as [-> | ->]; simpl; rewrite decide_False by done;
      (destruct rest as [|bit' rest]; [right; by eexists|by left]).
Qed.

(** X8 (decoding with the single-leaf tree).  With the tree built for one
  byte value [c], [_decode_data] turns [n] bits "0" into [n] copies of
  [c], and raises as soon as one of the bits is not "0". *)
Theorem decode_data_single_leaf_tree (c : byte) (f : Z) (encoded_data : bits) :
  _decode_data encoded_data (Some (single_leaf_tree c f))
  = if decide (Forall (fun bit => bit = c0) encoded_data)
    then Some (replicate (length encoded_data) c)
    else None.
Proof.
  destruct (decide (Forall (fun bit => bit = c0) encoded_data)) as [Hz|Hz].
  - destruct encoded_data as [|bit rest]; [done|].
    unfold _decode_data.
    rewrite (decode_loop_single_zeros c f (bit :: rest) _ [] Hz);
      [|done|by left].
    simpl. rewrite Nat.sub_0_r. f_equal.
    change (replicate (length rest) c ++ [c] = replicate (S (length rest)) c).
    by rewrite replicate_S_end.
  - destruct encoded_data as [|bit rest].
    { exfalso. apply Hz. constructor. }
    unfold _decode_data.
    destruct (decode_loop_single_other c f (bit :: rest)
                (Some (single_leaf_tree c f)) [] Hz) as [-> | [d ->]];
      [auto|done|done].
Qed.

(** X9 (container layout).  The container [compress] writes for non-empty
  data is, in this order: the magic tag; the 4 bytes of the little-endian
  length of the pickled tree; the padding byte, [8 - len(encoded_data) % 8];
  the pickled tree; and the payload, which is the encoded bits followed by
  the padding zeros, packed 8 to a byte, so one byte for every 8 encoded
  bits, rounded up. *)
Theorem compress_container_layout
    (pickle_dumps : tree_data -> list byte) (data : list byte) :
  data ≠ [] -> tree_fits pickle_dumps data ->
  exists root encoded_data container size_bytes padding_byte compressed_data,
    encode_input data = Some (root, encoded_data)
    /\ compress pickle_dumps data = mkOutcome true None (Some container)
    /\ container
       = MAGIC ++ size_bytes ++ [padding_byte]
         ++ pickled_tree pickle_dumps data ++ compressed_data
    /\ length size_bytes = 4%nat
    /\ unpack_I size_bytes
       = Some (Z.of_nat (length (pickled_tree pickle_dumps data)))
    /\ byte_to_Z padding_byte = 8 - Z.of_nat (length encoded_data mod 8)
    /\ pack_bits (add_padding encoded_data) = Some compressed_data
    /\ unpack_bits compressed_data
       = encoded_data ++ replicate (padding_of encoded_data mod 8) c0
    /\ take 4 container = MAGIC
    /\ unpack_I (take 4 (drop 4 container))
       = Some (Z.of_nat (length (pickled_tree pickle_dumps data)))
    /\ container !! 8%nat = Some padding_byte
    /\ take (length (pickled_tree pickle_dumps data)) (drop 9 container)
       = pickled_tree pickle_dumps data
    /\ drop (9 + length (pickled_tree pickle_dumps data)) container
       = compressed_data
    /\ length container
       = (9 + length (pickled_tree pickle_dumps data)
          + (length encoded_data + 7) / 8)%nat.
Proof.
  intros Hne Hfits.
  destruct (compress_spec pickle_dumps data Hne Hfits)
    as (root & encoded_data & compressed_data & size_bytes & padding_byte
        & Henc & Hpack & Hunpack & _ & Hsize & Hlen & Hpad & Hcompress).
  destruct (container_layout size_bytes padding_byte
              (pickled_tree pickle_dumps data) compressed_data Hlen)
    as [Hbyte Hpayload].
  exists (Some root), encoded_data,
    (MAGIC ++ size_bytes ++ [padding_byte]
     ++ pickled_tree pickle_dumps data ++ compressed_data),
    size_bytes, padding_byte, compressed_data.
  split; [done|]. split; [exact Hcompress|]. split; [done|].
  split; [done|]. split; [done|]. split.
  { rewrite Hpad. unfold padding_of.
    pose proof (Nat.mod_upper_bound (length encoded_data) 8). lia. }
  split; [done|]. split; [by rewrite Hunpack, add_padding_appended|].
  destruct size_bytes as [|b0 [|b1 [|b2 [|b3 [|??]]]]]; try done.
  split; [done|]. split; [exact Hsize|]. split; [done|]. split; [|split].
  - change (drop 9 (MAGIC ++ [b0; b1; b2; b3] ++ [padding_byte]
                      ++ pickled_tree pickle_dumps data ++ compressed_data))
      with (pickled_tree pickle_dumps data ++ compressed_data).
    by rewrite take_app_length.
  - exact Hpayload.
  - rewrite !length_app. cbn [length MAGIC].
    assert (Hbits : (8 * length compressed_data
                     = length encoded_data + padding_of encoded_data mod 8)%nat).
    { destruct (unpack_bits_binary compressed_data) as [<- _].
      rewrite Hunpack, add_padding_appended.
      by rewrite length_app, length_replicate. }
    assert (length compressed_data = ((length encoded_data + 7) / 8)%nat);
      [|lia].
    pose proof (padding_of_range encoded_data) as Hr.
    unfold padding_of in *.
    pose proof (Nat.div_mod_eq (length encoded_data) 8) as Hdm.
    pose proof (Nat.mod_upper_bound (length encoded_data) 8 ltac:(lia)) as Hm.
    apply (Nat.div_unique _ _ _
      (length encoded_data + 7 - 8 * length compressed_data)).
    + destruct (decide (length encoded_data mod 8 = 0)%nat) as [H0|H0].
      * rewrite H0 in Hbits. change ((8 - 0) mod 8)%nat with 0%nat in Hbits.
        lia.
      * rewrite Nat.mod_small in Hbits by lia. lia.
    + destruct (decide (length encoded_data mod 8 = 0)%nat) as [H0|H0].
      * rewrite H0 in Hbits. change ((8 - 0) mod 8)%nat with 0%nat in Hbits.
        lia.
      * rewrite Nat.mod_small in Hbits by lia. lia.
Qed.

Lemma compress_container_layout_witness :
  exists root encoded_data container size_bytes padding_byte compressed_data,
    encode_input aaaabbbc = Some (root, encoded_data)
    /\ compress prefix_dumps aaaabbbc = mkOutcome true None (Some container)
    /\ container
       = MAGIC ++ size_bytes ++ [padding_byte]
         ++ pickled_tree prefix_dumps aaaabbbc ++ compressed_data
    /\ length size_bytes = 4%nat
    /\ unpack_I size_bytes
       = Some (Z.of_nat (length (pickled_tree prefix_dumps aaaabbbc)))
    /\ byte_to_Z padding_byte = 8 - Z.of_nat (length encoded_data mod 8)
    /\ pack_bits (add_padding encoded_data) = Some compressed_data
    /\ unpack_bits compressed_data
       = encoded_data ++ replicate (padding_of encoded_data mod 8) c0
    /\ take 4 container = MAGIC
    /\ unpack_I (take 4 (drop 4 container))
       = Some (Z.of_nat (length (pickled_tree prefix_dumps aaaabbbc)))
    /\ container !! 8%nat = Some padding_byte
    /\ take (length (pickled_tree prefix_dumps aaaabbbc)) (drop 9 container)
       = pickled_tree prefix_dumps aaaabbbc
    /\ drop (9 + length (pickled_tree prefix_dumps aaaabbbc)) container
       = compressed_data
    /\ length container
       = (9 + length (pickled_tree prefix_dumps aaaabbbc)
          + (length encoded_data + 7) / 8)%nat.
Proof.
  apply (compress_container_layout prefix_dumps aaaabbbc).
  - discriminate.
  - vm_compute. reflexivity.
Defined.

(** The weight of an internal node is the sum of the weights of the
  children it has, everywhere in the tree. *)
Fixpoint weights_add_up (node : Node) : bool :=
  match node with
  | mkNode (Some _) _ _ _ => true
  | mkNode None f l r =>
      (f =? from_option freq 0 l + from_option freq 0 r)
      && match l with Some n => weights_add_up n | None => true end
      && match r with Some n => weights_add_up n | None => true end
  end.

Definition total_freq (heap : list Node) : Z :=
  foldr (fun n acc => freq n + acc) 0 heap.

Definition table_total (d : list (byte * Z)) : Z :=
  foldr (fun kv acc => kv.2 + acc) 0 d.

Lemma total_freq_Permutation heap heap' :
  heap ≡ₚ heap' -> total_freq heap = total_freq heap'.
Proof.
  induction 1 as [|n h h' _ IH|n m h|h1 h2 h3 _ IH1 _ IH2]; simpl;
    [done|by rewrite IH|lia|congruence].
Qed.

Lemma merge_loop_weights heap :
  heap ≠ [] -> Forall (fun n => weights_add_up n = true) heap ->
  exists root, merge_loop heap = Some root
    /\ weights_add_up root = true
    /\ freq root = total_freq heap.
Proof.
  remember (length heap) as m eqn:Hm. revert heap Hm.
  induction (lt_wf m) as [m _ IH]. intros heap -> Hne Hw.
  rewrite merge_loop_step.
  destruct (decide (1 < length heap)%nat) as [Hlen|Hlen].
  - destruct (heappop_Permutation Node_lt heap Hne) as (l & heap1 & -> & Hp1).
    simpl.
    assert (Hlen1 : length heap = S (length heap1)) by by rewrite Hp1.
    destruct (heappop_Permutation Node_lt heap1) as (r & heap2 & -> & Hp2).
    { intros ->. simpl in *. lia. }
    simpl.
    assert (Hlen2 : length heap1 = S (length heap2)) by by rewrite Hp2.
    set (merged := mkNode None (freq l + freq r) (Some l) (Some r)).
    destruct (heappush_Permutation Node_lt heap2 merged)
      as (heap3 & -> & Hp3). simpl.
    assert (Hlen3 : length heap3 = S (length heap2)) by by rewrite Hp3.
    rewrite (total_freq_Permutation _ _ Hp1).
    rewrite Hp1, Hp2 in Hw.
    apply Forall_cons in Hw as [Hl Hw]. apply Forall_cons in Hw as [Hr Hw].
    destruct (IH (length heap3) ltac:(lia) heap3 eq_refl)
      as (root & -> & Hroot & Hfreq).
    { intros ->. simpl in *. lia. }
    { rewrite Hp3. constructor; [|done]. simpl.
      by rewrite Z.eqb_refl, Hl, Hr. }
    exists root. split_and!; [done..|].
    rewrite Hfreq, (total_freq_Permutation _ _ Hp3). simpl.
    rewrite (total_freq_Permutation _ _ Hp2). simpl. lia.
  - destruct heap as [|root [|??]]; simpl in *; try done; try lia.
    exists root. apply Forall_cons in Hw as [Hroot _].
    split_and!; [done..|]. lia.
Qed.

Lemma total_freq_leaf_of items :
  total_freq (leaf_of <$> items) = table_total items.
Proof.
  induction items as [|[c f] items IH]; [done|].
  change (f + total_freq (leaf_of <$> items) = f + table_total items).
  by rewrite IH.
Qed.

Lemma table_total_counter_add c d :
  table_total (counter_add c d) = table_total d + 1.
Proof.
  induction d as [|[k v] d IH]; [done|].
  cbn [counter_add]. case_decide.
  - change (v + 1 + table_total d = v + table_total d + 1). lia.
  - change (v + table_total (counter_add c d) = v + table_total d + 1).
    rewrite IH. lia.
Qed.

Lemma table_total_Counter data :
  table_total (Counter data) = Z.of_nat (length data).
Proof.
  unfold Counter.
  assert (H : forall d, table_total (foldl (fun d c => counter_add c d) d data)
                        = table_total d + Z.of_nat (length data)).
  { induction data as [|c data IH]; intros d; simpl; [lia|].
    rewrite IH, table_total_counter_add. lia. }
  by rewrite H.
Qed.

(** X10 (weights).  In the tree built from non-empty data the weight of
  every internal node is the sum of the weights of its children, and the
  weight of the root is the length of the data. *)
Theorem tree_weights (data : list byte) :
  data ≠ [] ->
  exists root,
    _build_huffman_tree (_build_frequency_table data) = Some (Some root)
    /\ weights_add_up root = true
    /\ freq root = Z.of_nat (length data).
Proof.
  intros Hne. unfold _build_frequency_table, _build_huffman_tree.
  pose proof (Counter_nonempty data Hne) as Hc.
  pose proof (table_total_Counter data) as Htotal.
  destruct (Counter data) as [|item items]; [done|].
  destruct (push_leaves_Permutation (item :: items) []) as (heap & -> & Hperm).
  rewrite (right_id [] (++)) in Hperm. cbn [mbind option_bind].
  assert (Hlen : length heap = S (length items)).
  { rewrite Hperm. simpl. by rewrite length_fmap. }
  destruct (decide (length heap = 1%nat)) as [H1|H1].
  - destruct items; [|simpl in *; lia].
    apply Permutation_singleton_r in Hperm. subst heap.
    destruct item as [c f]. eexists. split; [reflexivity|].
    simpl in *. rewrite Z.add_0_r, Z.eqb_refl. split; [done|lia].
  - destruct (merge_loop_weights heap) as (root & -> & Hw & Hfreq).
    { intros ->. done. }
    { rewrite Hperm. apply Forall_fmap, Forall_true. by intros []. }
    exists root. split_and!; [done..|].
    by rewrite Hfreq, (total_freq_Permutation _ _ Hperm), total_freq_leaf_of.
Qed.

Lemma tree_weights_witness :
  exists root,
    _build_huffman_tree (_build_frequency_table aaaabbbc) = Some (Some root)
    /\ weights_add_up root = true
    /\ freq root = Z.of_nat (length aaaabbbc).
Proof. apply (tree_weights aaaabbbc). discriminate. Defined.

(** The sum over a table of its counts, each weighted by [g] of its key. *)
Definition table_weighted (g : byte -> Z) (d : list (byte * Z)) : Z :=
  foldr (fun kv acc => kv.2 * g kv.1 + acc) 0 d.

Lemma table_weighted_counter_add g c d :
  table_weighted g (counter_add c d) = table_weighted g d + g c.
Proof.
  induction d as [|[k v] d IH].
  - change (1 * g c + 0 = 0 + g c). lia.
  - cbn [counter_add]. case_decide as Hk.
    + subst k. change ((v + 1) * g c + table_weighted g d
                       = v * g c + table_weighted g d + g c). lia.
    + change (v * g k + table_weighted g (counter_add c d)
              = v * g k + table_weighted g d + g c).
      rewrite IH. lia.
Qed.

Lemma table_weighted_Counter g data :
  table_weighted g (Counter data) = foldr (fun ch acc => g ch + acc) 0 data.
Proof.
  unfold Counter.
  assert (H : forall d,
    table_weighted g (foldl (fun d c => counter_add c d) d data)
    = table_weighted g d + foldr (fun ch acc => g ch + acc) 0 data).
  { induction data as [|c data IH]; intros d; simpl; [lia|].
    rewrite IH, table_weighted_counter_add. lia. }
  by rewrite H.
Qed.

(** X11 (encoded length).  For non-empty data the number of encoded bits,
  before padding, is the sum over the frequency table of the count of each
  byte times the length of its code. *)
Theorem encoded_length (data : list byte) :
  data ≠ [] ->
  exists root encoded_data,
    encode_input data = Some (root, encoded_data)
    /\ Z.of_nat (length encoded_data)
       = table_weighted
           (fun ch => Z.of_nat (length (default [] (_build_codes root !! ch))))
           (_build_frequency_table data).
Proof.
  intros Hne.
  destruct (encode_input_spec data Hne)
    as (root & encoded_data & Hbuild & Henc & _).
  exists (Some root), encoded_data. split; [done|].
  unfold encode_input in Henc. rewrite Hbuild in Henc.
  cbn [mbind option_bind] in Henc.
  destruct (_encode_data data (_build_codes (Some root))) as [e|] eqn:He;
    [|done].
  injection Henc as <-.
  apply encode_data_Some in He. subst e.
  unfold _build_frequency_table. rewrite table_weighted_Counter.
  clear. induction data as [|c data IH]; [done|].
  cbn [fmap list_fmap concat foldr]. rewrite length_app, Nat2Z.inj_add.
  by rewrite IH.
Qed.

Lemma encoded_length_witness :
  exists root encoded_data,
    encode_input aaaabbbc = Some (root, encoded_data)
    /\ Z.of_nat (length encoded_data)
       = table_weighted
           (fun ch => Z.of_nat (length (default [] (_build_codes root !! ch))))
           (_build_frequency_table aaaabbbc).
Proof. apply (encoded_length aaaabbbc). discriminate. Defined.

(** X12 (containers that decode to nothing).  On a well-laid-out container
  [decompress] returns [True] and writes an empty file, without looking at
  the rest, when the pickled tree is [None], when the payload is empty,
  when the padding byte is 0 (the slice [[:-0]] is empty), or when the
  padding byte, other than 8, is at least the number of payload bits. *)
Theorem decompress_empty_output
    (pickle_loads : list byte -> option tree_data)
    (size_bytes : list byte) (padding_byte : byte)
    (tree_bytes compressed_data : list byte) (tree : tree_data) :
  unpack_I size_bytes = Some (Z.of_nat (length tree_bytes)) ->
  pickle_loads tree_bytes = Some tree ->
  tree = TNone \/ compressed_data = [] \/ byte_to_Z padding_byte = 0
  \/ (byte_to_Z padding_byte ≠ 8
      /\ Z.of_nat (8 * length compressed_data) <= byte_to_Z padding_byte) ->
  decompress pickle_loads
    (MAGIC ++ size_bytes ++ [padding_byte] ++ tree_bytes ++ compressed_data)
  = mkOutcome true None (Some []).
Proof.
  intros Hsize Hloads Hcase.
  rewrite (decompress_container pickle_loads size_bytes padding_byte
             tree_bytes compressed_data tree Hsize Hloads).
  assert (Hdec : forall root, _decode_data [] root = Some []).
  { by intros [root|]. }
  destruct Hcase as [-> | [-> | [H0 | [H8 Hle]]]].
  - simpl. done.
  - replace (strip_padding _ (unpack_bits [])) with (@nil ascii);
      [by rewrite Hdec|].
    unfold strip_padding, slice_to_neg. simpl.
    case_decide; [|done]. by destruct (Z.to_nat _).
  - rewrite H0. unfold strip_padding. rewrite decide_True by done.
    simpl. by rewrite Hdec.
  - unfold strip_padding. rewrite decide_True by done.
    unfold slice_to_neg. destruct (Z.to_nat (byte_to_Z padding_byte)) eqn:Hn.
    + by rewrite Hdec.
    + destruct (unpack_bits_binary compressed_data) as [Hlen _].
      replace (length (unpack_bits compressed_data) - S n)%nat with 0%nat
        by lia.
      rewrite take_0. by rewrite Hdec.
Qed.

Lemma decompress_empty_output_witness :
  decompress prefix_loads
    (MAGIC ++ [x01; x00; x00; x00] ++ [x00] ++ [x00] ++ [xff; xff])
  = mkOutcome true None (Some []).
Proof.
  apply (decompress_empty_output prefix_loads [x01; x00; x00; x00] x00
           [x00] [xff; xff] TNone).
  - reflexivity.
  - reflexivity.
  - by left.
Defined.

Lemma full_children node :
  full node = true -> char node = None ->
  exists l r, left node = Some l /\ right node = Some r
    /\ full l = true /\ full r = true.
Proof.
  destruct node as [[c|] f [l|] [r|]]; simpl; try done.
  intros [Hl Hr]%andb_true_iff _. by exists l, r.
Qed.

Lemma decode_loop_full root (encoded_data : bits) :
  char root = None -> full root = true ->
  forall cur decoded, full cur = true ->
  exists cur' decoded',
    decode_loop encoded_data root (Some cur) decoded
    = Some (Some cur', decoded')
    /\ full cur' = true.
Proof.
  intros Hroot Hfull.
  induction encoded_data as [|bit rest IH]; intros cur decoded Hcur.
  - by exists cur, decoded.
  - cbn [decode_loop mbind option_bind].
    destruct (char cur) as [ch|] eqn:Hch.
    + destruct (full_children root Hfull Hroot) as (l & r & Hl & Hr & Hfl & Hfr).
      rewrite Hl, Hr. case_decide; by apply IH.
    + destruct (full_children cur Hcur Hch) as (l & r & Hl & Hr & Hfl & Hfr).
      rewrite Hl, Hr. case_decide; by apply IH.
Qed.

Lemma full_leaves_nonempty node : full node = true -> leaves node ≠ [].
Proof.
  induction node as [c f l r IHl IHr] using Node_child_ind.
  destruct c as [c|]; [done|].
  destruct l as [l|], r as [r|]; try done. simpl in IHl.
  intros [Hl Hr]%andb_true_iff. rewrite leaves_internal.
  intros [Hnil _]%app_eq_nil. by apply (IHl Hl).
Qed.

(** The step a character of the bit-string stands for: "0" is a step to
  the left, any other character a step to the right, as "1" is. *)
Definition as_bit (c : ascii) : ascii := if decide (c = c0) then c0 else c1.

Lemma decode_loop_as_bit (encoded_data : bits) root :
  forall current decoded,
  decode_loop (as_bit <$> encoded_data) root current decoded
  = decode_loop encoded_data root current decoded.
Proof.
  induction encoded_data as [|bit rest IH]; intros current decoded; [done|].
  cbn [fmap list_fmap decode_loop]. destruct current as [cur|]; [|done].
  cbn [mbind option_bind]. destruct (char cur) as [ch|].
  - unfold as_bit. destruct (decide (bit = c0)) as [Hb|Hb].
    + rewrite decide_True by done. apply IH.
    + rewrite decide_False by done. apply IH.
  - unfold as_bit. destruct (decide (bit = c0)) as [Hb|Hb].
    + rewrite decide_True by done. apply IH.
    + rewrite decide_False by done. apply IH.
Qed.

Lemma decode_loop_app (s1 s2 : bits) root :
  forall current decoded,
  decode_loop (s1 ++ s2) root current decoded
  = '(current', decoded') ← decode_loop s1 root current decoded;
    decode_loop s2 root current' decoded'.
Proof.
  induction s1 as [|bit rest IH]; intros current decoded; [done|].
  cbn [app decode_loop]. destruct current as [cur|]; [|done].
  cbn [mbind option_bind]. destruct (char cur); apply IH.
Qed.

(** A walk that stops before its leaf leaves the decoder on an internal
  node, with nothing output. *)
Lemma decode_loop_inside root (tail : bits) :
  forall node decoded c q,
  q ≠ [] -> (c, tail ++ q) ∈ paths node ->
  exists node', char node' = None
    /\ decode_loop tail root (Some node) decoded
       = Some (Some node', decoded).
Proof.
  induction tail as [|b tail IH]; intros node decoded c q Hq Hin.
  - exists node. split; [|done]. destruct q as [|b q]; [done|].
    by apply paths_cons in Hin as (Hnode & _).
  - apply paths_cons in Hin as (Hnode & _ & child & Hchild & Hin).
    destruct (IH child decoded c q Hq Hin) as (node' & Hnode' & Heq).
    exists node'. split; [done|]. simpl. by rewrite Hnode, Hchild.
Qed.

Lemma decode_loop_concat_state root data parts :
  char root = None ->
  forall cur decoded,
  Forall2 (fun ch p => (ch, p) ∈ paths root) data parts ->
  (cur = root \/ char cur ≠ None) ->
  exists cur' decoded',
    decode_loop (concat parts) root (Some cur) decoded
      = Some (Some cur', decoded')
    /\ decoded' ++ pending cur' = decoded ++ pending cur ++ data
    /\ (cur' = root \/ char cur' ≠ None).
Proof.
  intros Hroot cur decoded Hparts. revert cur decoded.
  induction Hparts as [|ch p data parts Hin _ IH]; intros cur decoded Hcur.
  - exists cur, decoded. by rewrite (right_id [] (++)).
  - simpl.
    destruct (decode_loop_symbol root Hroot p cur (concat parts) decoded ch
                Hin Hcur) as (leaf & Hleaf & ->).
    destruct (IH leaf (decoded ++ pending cur))
      as (cur' & decoded' & -> & Heq & Hcur').
    { right. congruence. }
    exists cur', decoded'. split; [done|]. split; [|done]. rewrite Heq.
    unfold pending at 2. rewrite Hleaf. by rewrite <-(assoc (++)).
Qed.

(** Decoding the codes of [data] followed by bits that stop inside the
  tree gives [data]. *)
Lemma decode_data_codes_and_tail root data parts (tail : bits) :
  char root = None ->
  Forall2 (fun ch p => (ch, p) ∈ paths root) data parts ->
  tail = [] \/ (exists c q, q ≠ [] /\ (c, tail ++ q) ∈ paths root) ->
  _decode_data (concat parts ++ tail) (Some root) = Some data.
Proof.
  intros Hroot Hparts Htail.
  assert (Hloop : exists cur' decoded',
    decode_loop (concat parts ++ tail) root (Some root) []
      = Some (Some cur', decoded')
    /\ decoded' ++ pending cur' = data).
  { rewrite decode_loop_app.
    destruct (decode_loop_concat_state root data parts Hroot root []
                Hparts) as (cur1 & decoded1 & -> & Heq & Hcur1); [by left|].
    cbn [mbind option_bind].
    unfold pending at 2 in Heq. rewrite Hroot in Heq. simpl in Heq.
    destruct Htail as [-> | (c & q & Hq & Hin)].
    { by exists cur1, decoded1. }
    destruct tail as [|b tail]; [by exists cur1, decoded1|].
    apply paths_cons in Hin as (_ & _ & child & Hchild & Hin).
    destruct (decode_loop_inside root tail child (decoded1 ++ pending cur1)
                c q Hq Hin) as (node' & Hnode' & Hwalk).
    exists node', (decoded1 ++ pending cur1). split.
    - rewrite <-Hwalk. simpl. unfold pending.
      destruct (char cur1) as [ch|] eqn:Hch.
      + by rewrite Hchild.
      + destruct Hcur1 as [-> | ?]; [|done].
        by rewrite (right_id [] (++)), Hchild.
    - unfold pending at 2. rewrite Hnode'. by rewrite (right_id [] (++)). }
  destruct Hloop as (cur' & decoded' & Hloop & Heq).
  unfold _decode_data. destruct (concat parts ++ tail) as [|b rest] eqn:Hbits.
  - simpl in Hloop. injection Hloop as <- <-.
    unfold pending in Heq. rewrite Hroot in Heq. by rewrite <-Heq.
  - rewrite Hloop. cbn [mbind option_bind]. unfold pending in Heq.
    destruct (char cur'); [by rewrite Heq|].
    by rewrite (right_id [] (++)) in Heq; rewrite Heq.
Qed.

Lemma as_bit_binary (s : bits) : binary (as_bit <$> s).
Proof.
  apply Forall_fmap, Forall_forall. intros c _. simpl. unfold as_bit.
  case_decide; [by left|by right].
Qed.

(** In a full tree a binary string either starts with the walk to a leaf
  or stops before one. *)
Lemma full_walk (s : bits) :
  binary s ->
  forall node, full node = true ->
  (exists c p rest, s = p ++ rest /\ (c, p) ∈ paths node)
  \/ (exists c q, q ≠ [] /\ (c, s ++ q) ∈ paths node).
Proof.
  induction s as [|b s IH]; intros Hs node Hfull.
  - destruct node as [[ch|] f [l|] [r|]]; try done.
    + left. exists ch, [], []. split; [done|]. simpl. by apply list_elem_of_singleton.
    + right. apply andb_true_iff in Hfull as [Hl _].
      pose proof (full_leaves_nonempty l Hl) as Hne.
      unfold leaves in Hne. destruct (paths l) as [|[c p] ps] eqn:Hp; [done|].
      exists c, (c0 :: p). split; [done|]. apply paths_left. rewrite Hp.
      by left.
  - apply Forall_cons in Hs as [Hb Hs].
    destruct node as [[ch|] f [l|] [r|]]; try done.
    + left. exists ch, [], (b :: s). split; [done|]. simpl.
      by apply list_elem_of_singleton.
    + apply andb_true_iff in Hfull as [Hl Hr]. destruct Hb as [-> | ->].
      * destruct (IH Hs l Hl) as [(c & p & rest & -> & Hin) | (c & q & Hq & Hin)].
        -- left. exists c, (c0 :: p), rest. split; [done|]. by apply paths_left.
        -- right. exists c, q. split; [done|]. by apply paths_left.
      * destruct (IH Hs r Hr) as [(c & p & rest & -> & Hin) | (c & q & Hq & Hin)].
        -- left. exists c, (c1 :: p), rest. split; [done|]. by apply paths_right.
        -- right. exists c, q. split; [done|]. by apply paths_right.
Qed.

(** A binary string splits into walks from the root to leaves, followed
  by a rest that stops inside the tree. *)
Lemma full_parse root :
  char root = None -> full root = true ->
  forall (n : nat) (s : bits), (length s <= n)%nat -> binary s ->
  exists data parts tail,
    s = concat parts ++ tail
    /\ Forall2 (fun ch p => (ch, p) ∈ paths root) data parts
    /\ (tail = [] \/ exists c q, q ≠ [] /\ (c, tail ++ q) ∈ paths root).
Proof.
  intros Hroot Hfull. induction n as [|n IH]; intros s Hlen Hs.
  - destruct s; [|simpl in Hlen; lia]. exists [], [], []. split; [done|].
    split; [constructor|by left].
  - destruct (full_walk s Hs root Hfull)
      as [(c & p & rest & -> & Hin) | (c & q & Hq & Hin)].
    + destruct p as [|b p].
      { apply paths_nil in Hin. congruence. }
      apply Forall_app in Hs as [_ Hrest].
      destruct (IH rest) as (data & parts & tail & -> & Hparts & Htail);
        [simpl in Hlen; rewrite length_app in Hlen; lia|done|].
      exists (c :: data), ((b :: p) :: parts), tail. split.
      { simpl. by rewrite <-(assoc (++)). }
      split; [by constructor|done].
    + exists [], [], s. split; [done|]. split; [constructor|].
      right. by exists c, q.
Qed.

(** X13 (what decoding gives with a full tree).  With a tree whose root is
  internal and whose internal nodes all have both children, and whose
  leaves carry byte values, [_decode_data] raises on no bit-string and
  its result is determined: a character other than "0" is read as "1";
  read that way, the bit-string is a sequence of root-to-leaf walks
  followed by a rest that stops inside the tree, and the result is the
  bytes of those leaves in order, the rest being dropped. *)
Theorem decode_data_full_tree (root : Node) :
  char root = None -> full root = true ->
  (forall data parts (tail : bits),
     Forall2 (fun ch p => (ch, p) ∈ paths root) data parts ->
     tail = [] \/ (exists c q, q ≠ [] /\ (c, tail ++ q) ∈ paths root) ->
     _decode_data (concat parts ++ tail) (Some root) = Some data)
  /\ (forall encoded_data : bits,
        _decode_data encoded_data (Some root)
        = _decode_data (as_bit <$> encoded_data) (Some root))
  /\ (forall encoded_data : bits,
        exists data parts tail,
          as_bit <$> encoded_data = concat parts ++ tail
          /\ Forall2 (fun ch p => (ch, p) ∈ paths root) data parts
          /\ (tail = [] \/ exists c q, q ≠ [] /\ (c, tail ++ q) ∈ paths root)
          /\ _decode_data encoded_data (Some root) = Some data).
Proof.
  intros Hroot Hfull.
  assert (Has_bit : forall encoded_data : bits,
    _decode_data encoded_data (Some root)
    = _decode_data (as_bit <$> encoded_data) (Some root)).
  { intros [|bit rest]; [done|]. unfold _decode_data.
    change (as_bit <$> bit :: rest) with (as_bit bit :: (as_bit <$> rest)).
    change (as_bit bit :: (as_bit <$> rest)) with (as_bit <$> bit :: rest)
      at 2.
    by rewrite decode_loop_as_bit. }
  split; [|split; [done|]].
  - intros data parts tail. by apply decode_data_codes_and_tail.
  - intros encoded_data.
    destruct (full_parse root Hroot Hfull (length (as_bit <$> encoded_data))
                (as_bit <$> encoded_data))
      as (data & parts & tail & Heq & Hparts & Htail);
      [done|apply as_bit_binary|].
    exists data, parts, tail. split; [done|]. split; [done|].
    split; [done|]. rewrite Has_bit, Heq.
    by apply decode_data_codes_and_tail.
Qed.

Definition full_tree_example : Node :=
  mkNode None 8 (Some (mkNode (Some x61) 4 None None))
    (Some (mkNode None 4 (Some (mkNode (Some x63) 1 None None))
             (Some (mkNode (Some x62) 3 None None)))).

Lemma decode_data_full_tree_witness :
  _decode_data [c0; c1; c1; c1; c0; c1] (Some full_tree_example)
    = Some [x61; x62; x63]
  /\ _decode_data [c0; "x"%char; "1"%char; "2"%char; c0; "y"%char]
       (Some full_tree_example)
     = _decode_data [c0; c1; c1; c1; c0; c1] (Some full_tree_example)
  /\ exists data parts tail,
       as_bit <$> [c0; "x"%char; "1"%char; "2"%char; c0; "y"%char]
         = concat parts ++ tail
       /\ Forall2 (fun ch p => (ch, p) ∈ paths full_tree_example) data parts
       /\ (tail = []
           \/ exists c q, q ≠ [] /\ (c, tail ++ q) ∈ paths full_tree_example)
       /\ _decode_data [c0; "x"%char; "1"%char; "2"%char; c0; "y"%char]
            (Some full_tree_example) = Some data.
Proof.
  destruct (decode_data_full_tree full_tree_example eq_refl eq_refl)
    as (Hcodes & Has_bit & Hparse).
  split; [|split].
  - apply (Hcodes [x61; x62; x63] [[c0]; [c1; c1]; [c1; c0]] [c1]).
    + repeat constructor; vm_compute; set_solver.
    + right. exists x63, [c0]. split; [done|]. vm_compute. set_solver.
  - rewrite (Has_bit [c0; "x"%char; "1"%char; "2"%char; c0; "y"%char]).
    reflexivity.
  - apply Hparse.
Defined.


(** A walk in a full tree is shorter than the number of leaves. *)
Lemma paths_length_full node :
  full node = true ->
  forall c p, (c, p) ∈ paths node -> (length p < length (leaves node))%nat.
Proof.
  induction node as [ch f l r IHl IHr] using Node_child_ind.
  destruct ch as [ch|].
  - intros _ c p Hin. simpl in Hin.
    apply list_elem_of_singleton in Hin. injection Hin as -> ->.
    unfold leaves. simpl. lia.
  - destruct l as [l|], r as [r|]; try done. simpl in IHl, IHr.
    intros [Hl Hr]%andb_true_iff c p Hin.
    rewrite leaves_internal, length_app.
    pose proof (full_leaves_nonempty l Hl) as Hnl.
    pose proof (full_leaves_nonempty r Hr) as Hnr.
    assert (0 < length (leaves l))%nat by (destruct (leaves l); simpl; [done|lia]).
    assert (0 < length (leaves r))%nat by (destruct (leaves r); simpl; [done|lia]).
    simpl in Hin. apply elem_of_app in Hin as [Hin|Hin];
      apply list_elem_of_fmap in Hin as ([c' p'] & [= -> ->] & Hin); simpl.
    + specialize (IHl Hl c' p' Hin). lia.
    + specialize (IHr Hr c' p' Hin). lia.
Qed.

Lemma NoDup_byte_length (l : list byte) : NoDup l -> (length l <= 256)%nat.
Proof.
  intros Hnd.
  assert (Hsub : Byte.to_nat <$> l ⊆+ seq 0 256).
  { apply NoDup_submseteq.
    - apply NoDup_fmap_2; [|done]. intros x y Hxy.
      apply (f_equal Byte.of_nat) in Hxy. rewrite !Byte.of_to_nat in Hxy.
      by injection Hxy.
    - intros n (b & -> & _)%list_elem_of_fmap. apply elem_of_seq.
      pose proof (Byte.to_nat_bounded b). lia. }
  apply submseteq_length in Hsub. by rewrite length_fmap, length_seq in Hsub.
Qed.

(** X14 (code lengths).  For non-empty data with [n] distinct byte values
  every code has at least 1 bit and at most [max 1 (n - 1)] bits, hence at
  most 255. *)
Theorem code_length_bound (data : list byte) :
  data ≠ [] ->
  exists root,
    _build_huffman_tree (_build_frequency_table data) = Some (Some root)
    /\ forall ch code, _build_codes (Some root) !! ch = Some code ->
         (1 <= length code
          <= Nat.max 1 (length (_build_frequency_table data) - 1))%nat
         /\ (length code <= 255)%nat.
Proof.
  intros Hne. unfold _build_frequency_table.
  destruct (build_huffman_tree_spec (Counter data) (Counter_nonempty data Hne))
    as (root & Hbuild & Hroot & Hleaves & Hshape).
  pose proof (Counter_NoDup data) as Hnd.
  pose proof (NoDup_byte_length _ Hnd) as H256. rewrite length_fmap in H256.
  exists root. split; [done|]. intros ch code Hlk.
  destruct (build_codes_lookup root ch Hroot) as [_ Hlk'].
  destruct (Hlk' code Hlk) as [Hp Hnil].
  assert (1 <= length code)%nat by (destruct code; simpl; [done|lia]).
  assert (Hlen : length (leaves root) = length (Counter data)).
  { by rewrite Hleaves, length_fmap. }
  destruct (Counter data) as [|item [|item' items]] eqn:Htable; [done| |].
  - subst root. simpl in Hp. apply list_elem_of_singleton in Hp.
    injection Hp as -> ->. simpl. lia.
  - pose proof (paths_length_full root Hshape ch code Hp) as Hlt.
    rewrite Hlen in Hlt. simpl in *. lia.
Qed.

Lemma code_length_bound_witness :
  exists root,
    _build_huffman_tree (_build_frequency_table aaaabbbc) = Some (Some root)
    /\ forall ch code, _build_codes (Some root) !! ch = Some code ->
         (1 <= length code
          <= Nat.max 1 (length (_build_frequency_table aaaabbbc) - 1))%nat
         /\ (length code <= 255)%nat.
Proof. apply (code_length_bound aaaabbbc). discriminate. Defined.

(** ** The heap order kept by [heapq] *)

Section HeapOrder.
Context {A : Type} (key : A -> Z).

(** An [<] that compares keys, as [Node.__lt__] compares weights. *)
Definition key_lt (a b : A) : bool := key a <? key b.

(** Every item is at least its parent: the heap invariant of [heapq]. *)
Definition heap_ordered (heap : list A) : Prop :=
  forall (j : nat) x y, (0 < j)%nat ->
    heap !! j = Some y -> heap !! heapq.parentpos j = Some x ->
    key x <= key y.

(** The heap invariant away from the position [pos] that is being filled. *)
Definition ordered_off (pos : nat) (heap : list A) : Prop :=
  forall (j : nat) x y, (0 < j)%nat -> j ≠ pos -> heapq.parentpos j ≠ pos ->
    heap !! j = Some y -> heap !! heapq.parentpos j = Some x ->
    key x <= key y.

(** The children of [pos] have keys of at least [b]. *)
Definition children_above (pos : nat) (heap : list A) (b : Z) : Prop :=
  forall (j : nat) y, (0 < j)%nat -> heapq.parentpos j = pos ->
    heap !! j = Some y -> b <= key y.

(** The children of [pos] are at least the parent of [pos]. *)
Definition children_above_parent (pos : nat) (heap : list A) : Prop :=
  (0 < pos)%nat -> forall P, heap !! heapq.parentpos pos = Some P ->
    children_above pos heap (key P).

Lemma parentpos_child (j pos : nat) :
  (0 < j)%nat /\ heapq.parentpos j = pos
  <-> j = (2 * pos + 1)%nat \/ j = (2 * pos + 1 + 1)%nat.
Proof.
  unfold heapq.parentpos. split.
  - intros [Hj <-].
    pose proof (Nat.div_mod_eq (j - 1) 2) as Hdm.
    pose proof (Nat.mod_upper_bound (j - 1) 2 ltac:(lia)) as Hm. lia.
  - intros [-> | ->]; (split; [lia|]).
    + replace (2 * pos + 1 - 1)%nat with (pos * 2)%nat by lia.
      apply Nat.div_mul. lia.
    + replace (2 * pos + 1 + 1 - 1)%nat with (1 + pos * 2)%nat by lia.
      rewrite Nat.div_add by lia. done.
Qed.

Lemma siftdown_loop_ordered (pos : nat) : forall heap newitem,
  (pos < length heap)%nat ->
  ordered_off pos heap ->
  children_above pos heap (key newitem) ->
  children_above_parent pos heap ->
  exists heap',
    heapq.siftdown_loop key_lt heap 0 pos newitem = Some heap'
    /\ heap_ordered heap'.
Proof.
  induction (lt_wf pos) as [pos _ IH]. intros heap newitem Hpos Hoff Hch Hpar.
  rewrite heapq.siftdown_loop_equation_1.
  assert (Hexit : forall P,
    ((0 < pos)%nat ->
     heap !! heapq.parentpos pos = Some P /\ key P <= key newitem)
    -> heap_ordered (<[pos:=newitem]> heap)).
  { intros P HP j x y Hj Hy Hx.
    pose proof (parent_lt_pos j Hj) as Hlt.
    destruct (decide (j = pos)) as [->|Hjpos].
    - rewrite list_lookup_insert_eq in Hy by done. injection Hy as <-.
      rewrite list_lookup_insert_ne in Hx by lia.
      destruct (HP Hj) as [HP1 HP2]. congruence.
    - rewrite list_lookup_insert_ne in Hy by done.
      destruct (decide (heapq.parentpos j = pos)) as [Hp|Hp].
      + rewrite Hp, list_lookup_insert_eq in Hx by done. injection Hx as <-.
        by apply (Hch j).
      + rewrite list_lookup_insert_ne in Hx by done. by apply (Hoff j). }
  destruct (decide (0 < pos)%nat) as [Hs|Hs].
  - pose proof (parent_lt_pos pos Hs) as Hp.
    destruct (lookup_lt_is_Some_2 heap (heapq.parentpos pos)) as [P HP];
      [lia|].
    rewrite HP. unfold key_lt at 1.
    destruct (key newitem <? key P) eqn:Hlt.
    + apply Z.ltb_lt in Hlt. rewrite (setitem_Some heap pos P Hpos).
      apply IH; [done|by rewrite length_insert; lia| | |].
      * intros j x y Hj Hj1 Hj2 Hy Hx.
        destruct (decide (j = pos)) as [->|Hjpos]; [done|].
        rewrite list_lookup_insert_ne in Hy by done.
        destruct (decide (heapq.parentpos j = pos)) as [Hpj|Hpj].
        -- rewrite Hpj, list_lookup_insert_eq in Hx by done.
           injection Hx as <-. by apply (Hpar Hs P HP j).
        -- rewrite list_lookup_insert_ne in Hx by done. by apply (Hoff j).
      * intros j y Hj Hpj Hy.
        destruct (decide (j = pos)) as [->|Hjpos].
        -- rewrite list_lookup_insert_eq in Hy by done. injection Hy as <-.
           lia.
        -- rewrite list_lookup_insert_ne in Hy by done.
           assert (key P <= key y); [|lia].
           apply (Hoff j P y Hj Hjpos); [lia|done|by rewrite Hpj].
      * intros Hpp P' HP' j y Hj Hpj Hy.
        rewrite list_lookup_insert_ne in HP'
          by (pose proof (parent_lt_pos _ Hpp); lia).
        assert (HPP : key P' <= key P).
        { apply (Hoff (heapq.parentpos pos) P' P Hpp); [lia| |done|done].
          pose proof (parent_lt_pos _ Hpp). lia. }
        destruct (decide (j = pos)) as [->|Hjpos].
        -- rewrite list_lookup_insert_eq in Hy by done. by injection Hy as <-.
        -- rewrite list_lookup_insert_ne in Hy by done.
           assert (key P <= key y); [|lia].
           apply (Hoff j P y Hj Hjpos); [lia|done|by rewrite Hpj].
    + apply Z.ltb_ge in Hlt. rewrite setitem_Some by done.
      eexists; split; [done|]. by apply (Hexit P).
  - rewrite setitem_Some by done. eexists; split; [done|].
    destruct (lookup_lt_is_Some_2 heap pos Hpos) as [P HP].
    apply (Hexit P). lia.
Qed.

(** [heappush] keeps the heap invariant. *)
Lemma heappush_ordered heap item :
  heap_ordered heap ->
  exists heap', heapq.heappush key_lt heap item = Some heap'
    /\ heap_ordered heap' /\ heap' ≡ₚ item :: heap.
Proof.
  intros Hord.
  destruct (heappush_Permutation key_lt heap item) as (heap' & Hpush & Hperm).
  exists heap'. split; [done|]. split; [|done].
  unfold heapq.heappush, heapq._siftdown in Hpush.
  rewrite length_app in Hpush. simpl in Hpush.
  replace (length heap + 1 - 1)%nat with (length heap) in Hpush by lia.
  rewrite lookup_app_r, Nat.sub_diag in Hpush by done. simpl in Hpush.
  destruct (siftdown_loop_ordered (length heap) (heap ++ [item]) item)
    as (heap'' & Hloop & Hord'').
  - rewrite length_app. simpl. lia.
  - intros j x y Hj Hj1 Hj2 Hy Hx.
    pose proof (parent_lt_pos j Hj) as Hlt.
    assert (j < length heap)%nat.
    { apply lookup_lt_Some in Hy. rewrite length_app in Hy. simpl in Hy. lia. }
    rewrite lookup_app_l in Hy by done. rewrite lookup_app_l in Hx by lia.
    by apply (Hord j).
  - intros j y Hj Hpj Hy. apply lookup_lt_Some in Hy.
    rewrite length_app in Hy. simpl in Hy.
    destruct (proj1 (parentpos_child j (length heap))); [by split|lia|lia].
  - intros _ P _ j y Hj Hpj Hy. apply lookup_lt_Some in Hy.
    rewrite length_app in Hy. simpl in Hy.
    destruct (proj1 (parentpos_child j (length heap))); [by split|lia|lia].
  - rewrite Hpush in Hloop. by injection Hloop as <-.
Qed.

Lemma siftup_loop_ordered heap endpos pos :
  endpos = length heap -> (pos < endpos)%nat ->
  ordered_off pos heap -> children_above_parent pos heap ->
  exists heap' pos',
    heapq.siftup_loop key_lt heap endpos pos = Some (heap', pos')
    /\ (pos' < length heap')%nat
    /\ ordered_off pos' heap'
    /\ (length heap' <= 2 * pos' + 1)%nat.
Proof.
  remember (endpos - pos)%nat as m eqn:Hm. revert heap pos Hm.
  induction (lt_wf m) as [m _ IH]. intros heap pos -> Hend Hpos Hoff Hpar.
  (* moving the child at [cpos], which is at most its sibling, into [pos] *)
  assert (Hstep : forall (cpos : nat) c,
    (cpos = 2 * pos + 1 \/ cpos = 2 * pos + 1 + 1)%nat ->
    heap !! cpos = Some c ->
    (forall (j : nat) y, (j = 2 * pos + 1 \/ j = 2 * pos + 1 + 1)%nat ->
       heap !! j = Some y -> key c <= key y) ->
    exists heap' pos',
      match setitem heap pos c with
      | Some heap => heapq.siftup_loop key_lt heap endpos cpos
      | None => None
      end = Some (heap', pos')
      /\ (pos' < length heap')%nat
      /\ ordered_off pos' heap'
      /\ (length heap' <= 2 * pos' + 1)%nat).
  { intros cpos c Hcpos Hc Hleast.
    assert (Hclt : (cpos < endpos)%nat)
      by (apply lookup_lt_Some in Hc; lia).
    rewrite setitem_Some by lia.
    apply (IH (endpos - cpos)%nat); [lia|done|by rewrite length_insert|lia| |].
    - intros j x y Hj Hj1 Hj2 Hy Hx.
      pose proof (parent_lt_pos j Hj) as Hlt.
      destruct (decide (j = pos)) as [->|Hjpos].
      + rewrite list_lookup_insert_eq in Hy by lia. injection Hy as <-.
        rewrite list_lookup_insert_ne in Hx by lia.
        apply (Hpar Hj x Hx cpos); [lia| |done].
        apply parentpos_child. lia.
      + rewrite list_lookup_insert_ne in Hy by done.
        destruct (decide (heapq.parentpos j = pos)) as [Hpj|Hpj].
        * rewrite Hpj, list_lookup_insert_eq in Hx by lia. injection Hx as <-.
          apply (Hleast j); [|done]. by apply parentpos_child.
        * rewrite list_lookup_insert_ne in Hx by done. by apply (Hoff j).
    - intros Hc0 P HP j y Hj Hpj Hy.
      assert (Hpc : heapq.parentpos cpos = pos)
        by (apply parentpos_child; lia).
      rewrite Hpc, list_lookup_insert_eq in HP by lia. injection HP as <-.
      pose proof (parent_lt_pos j Hj) as Hlt.
      rewrite list_lookup_insert_ne in Hy by lia.
      apply (Hoff j c y Hj); [lia|lia|done|by rewrite Hpj]. }
  rewrite heapq.siftup_loop_equation_1. cbv zeta.
  destruct (decide (2 * pos + 1 < endpos)%nat) as [Hc|Hc].
  - destruct (lookup_lt_is_Some_2 heap (2 * pos + 1)) as [c Hlc]; [lia|].
    destruct (decide (2 * pos + 1 + 1 < endpos)%nat) as [Hr|Hr].
    + destruct (lookup_lt_is_Some_2 heap (2 * pos + 1 + 1)) as [r Hlr]; [lia|].
      rewrite Hlc, Hlr. unfold key_lt at 1.
      destruct (key c <? key r) eqn:Hlt; simpl.
      * apply Z.ltb_lt in Hlt. apply (Hstep (2 * pos + 1)%nat c); [lia|done|].
        intros j y [-> | ->] Hy; rewrite Hy in *; simplify_option_eq; lia.
      * apply Z.ltb_ge in Hlt.
        apply (Hstep (2 * pos + 1 + 1)%nat r); [lia|done|].
        intros j y [-> | ->] Hy; rewrite Hy in *; simplify_option_eq; lia.
    + rewrite Hlc. apply (Hstep (2 * pos + 1)%nat c); [lia|done|].
      intros j y [-> | ->] Hy.
      * rewrite Hy in Hlc. injection Hlc as ->. lia.
      * apply lookup_lt_Some in Hy. lia.
  - exists heap, pos. split_and!; [done|lia|done|lia].
Qed.

(** In a heap the first item is a least one. *)
Lemma heap_root_least heap x :
  heap_ordered heap -> heap !! 0%nat = Some x ->
  forall y, y ∈ heap -> key x <= key y.
Proof.
  intros Hord Hx y [j Hy]%list_elem_of_lookup. revert y Hy.
  induction (lt_wf j) as [j _ IH]. intros y Hy.
  destruct (decide (j = 0%nat)) as [->|Hj].
  - rewrite Hx in Hy. injection Hy as <-. lia.
  - pose proof (parent_lt_pos j ltac:(lia)) as Hlt.
    destruct (lookup_lt_is_Some_2 heap (heapq.parentpos j)) as [P HP].
    { apply lookup_lt_Some in Hy. lia. }
    specialize (IH _ Hlt P HP).
    pose proof (Hord j P y ltac:(lia) Hy HP). lia.
Qed.

Lemma heap_ordered_removelast heap x :
  heap_ordered (heap ++ [x]) -> heap_ordered heap.
Proof.
  intros Hord j a b Hj Hb Ha. apply (Hord j a b Hj).
  - by apply lookup_app_l_Some.
  - by apply lookup_app_l_Some.
Qed.

(** [heappop] on a heap returns a least item and leaves a heap of the
  other items. *)
Lemma heappop_ordered heap :
  heap_ordered heap -> heap ≠ [] ->
  exists x heap',
    heapq.heappop key_lt heap = Some (x, heap')
    /\ heap_ordered heap' /\ heap ≡ₚ x :: heap'
    /\ forall y, y ∈ heap' -> key x <= key y.
Proof.
  intros Hord Hne.
  destruct (heappop_Permutation key_lt heap Hne) as (x & heap' & Hpop & Hperm).
  exists x, heap'. split; [done|].
  assert (Hx : heap !! 0%nat = Some x /\ heap_ordered heap').
  { unfold heapq.heappop in Hpop.
    destruct (pop_Some heap Hne) as (lastelt & heap1 & Hp & ->).
    rewrite Hp in Hpop. cbn [mbind option_bind] in Hpop.
    destruct heap1 as [|returnitem heap1].
    { injection Hpop as <- <-. split; [done|]. intros j ?? _ Hj. done. }
    change ((returnitem :: heap1) !! 0%nat) with (Some returnitem) in Hpop.
    cbn [mbind option_bind] in Hpop.
    rewrite setitem_Some in Hpop by (simpl; lia).
    cbn [mbind option_bind] in Hpop.
    change (<[0%nat:=lastelt]> (returnitem :: heap1)) with (lastelt :: heap1)
      in Hpop.
    apply heap_ordered_removelast in Hord.
    unfold heapq._siftup in Hpop.
    change ((lastelt :: heap1) !! 0%nat) with (Some lastelt) in Hpop.
    cbn [mbind option_bind] in Hpop.
    destruct (siftup_loop_ordered (lastelt :: heap1)
                (length (lastelt :: heap1)) 0 eq_refl)
      as (heap2 & pos2 & Hloop & Hpos2 & Hoff2 & Hleaf2).
    { simpl. lia. }
    { intros j a b Hj Hj1 Hj2 Hb Ha.
      pose proof (parent_lt_pos j Hj) as Hlt.
      apply (Hord j a b Hj).
      - destruct j; [lia|]. done.
      - destruct (heapq.parentpos j); [lia|]. done. }
    { intros H0. lia. }
    rewrite Hloop in Hpop. cbn [mbind option_bind] in Hpop.
    rewrite setitem_Some in Hpop by done. cbn [mbind option_bind] in Hpop.
    unfold heapq._siftdown in Hpop.
    rewrite list_lookup_insert_eq in Hpop by done.
    cbn [mbind option_bind] in Hpop.
    destruct (siftdown_loop_ordered pos2 (<[pos2:=lastelt]> heap2) lastelt)
      as (heap3 & Hloop3 & Hord3).
    { by rewrite length_insert. }
    { intros j a b Hj Hj1 Hj2 Hb Ha.
      rewrite list_lookup_insert_ne in Hb by done.
      rewrite list_lookup_insert_ne in Ha by done. by apply (Hoff2 j). }
    { intros j y Hj Hpj Hy. apply lookup_lt_Some in Hy.
      rewrite length_insert in Hy.
      destruct (proj1 (parentpos_child j pos2)); [by split|lia|lia]. }
    { intros _ P _ j y Hj Hpj Hy. apply lookup_lt_Some in Hy.
      rewrite length_insert in Hy.
      destruct (proj1 (parentpos_child j pos2)); [by split|lia|lia]. }
    rewrite Hloop3 in Hpop. cbn [mbind option_bind] in Hpop.
    injection Hpop as <- <-. by split. }
  destruct Hx as [Hx Hord']. split; [done|]. split; [done|].
  intros y Hy. apply (heap_root_least heap x Hord Hx).
  rewrite Hperm. by right.
Qed.
End HeapOrder.

(** X15 ([heapq] keeps its order).  On a list that satisfies the heap
  invariant, [heappush] never raises and gives a heap of the old items
  and the new one; [heappop] on a non-empty heap returns an item that is at
  most every other one and leaves a heap of the others; on the empty list
  [heappop] raises. *)
Theorem heapq_keeps_heap_order {A : Type} (key : A -> Z)
    (heap : list A) (item : A) :
  heap_ordered key heap ->
  (exists heap', heapq.heappush (key_lt key) heap item = Some heap'
     /\ heap_ordered key heap' /\ heap' ≡ₚ item :: heap)
  /\ (heap ≠ [] ->
      exists x heap', heapq.heappop (key_lt key) heap = Some (x, heap')
        /\ heap_ordered key heap' /\ heap ≡ₚ x :: heap'
        /\ forall y, y ∈ heap' -> key x <= key y)
  /\ heapq.heappop (key_lt key) (@nil A) = None.
Proof.
  intros Hord. split; [by apply heappush_ordered|].
  split; [by apply heappop_ordered|done].
Qed.

Lemma heapq_keeps_heap_order_witness :
  (exists heap', heapq.heappush (key_lt id) [1; 3; 2] 0 = Some heap'
     /\ heap_ordered id heap' /\ heap' ≡ₚ 0 :: [1; 3; 2])
  /\ ([1; 3; 2] ≠ [] ->
      exists x heap', heapq.heappop (key_lt id) [1; 3; 2] = Some (x, heap')
        /\ heap_ordered id heap' /\ [1; 3; 2] ≡ₚ x :: heap'
        /\ forall y, y ∈ heap' -> id x <= id y)
  /\ heapq.heappop (key_lt id) (@nil Z) = None.
Proof.
  apply (heapq_keeps_heap_order id [1; 3; 2] 0).
  intros [|[|[|j]]] x y Hj Hy Hx; try lia; try discriminate Hy;
    injection Hy as <-; injection Hx as <-; unfold id; lia.
Defined.

(** The greedy construction: while more than one node is left, two nodes of
  least weight are replaced by a node over them that carries the sum of
  their weights. *)
Inductive greedy_merge : list Node -> Node -> Prop :=
  | greedy_done root : greedy_merge [root] root
  | greedy_step heap l r rest heap' root :
      heap ≡ₚ l :: r :: rest ->
      (forall x, x ∈ r :: rest -> freq l <= freq x) ->
      (forall x, x ∈ rest -> freq r <= freq x) ->
      heap' ≡ₚ mkNode None (freq l + freq r) (Some l) (Some r) :: rest ->
      greedy_merge heap' root ->
      greedy_merge heap root.

Lemma greedy_merge_Permutation heap heap' root :
  heap ≡ₚ heap' -> greedy_merge heap root -> greedy_merge heap' root.
Proof.
  intros Hperm Hg. destruct Hg as [root|heap l r rest heap1 root H1 H2 H3 H4 H5].
  - apply Permutation_singleton_l in Hperm. subst. constructor.
  - apply (greedy_step heap' l r rest heap1 root); try done.
    by rewrite <-Hperm.
Qed.

Lemma push_leaves_ordered items : forall heap,
  heap_ordered freq heap ->
  exists heap', push_leaves items heap = Some heap'
    /\ heap_ordered freq heap' /\ heap' ≡ₚ (leaf_of <$> items) ++ heap.
Proof.
  induction items as [|[c f] items IH]; intros heap Hord; simpl.
  - by exists heap.
  - destruct (heappush_ordered freq heap (mkNode (Some c) f None None) Hord)
      as (heap1 & Hpush & Hord1 & Hperm1).
    change (key_lt freq) with Node_lt in Hpush. rewrite Hpush. simpl.
    destruct (IH heap1 Hord1) as (heap' & -> & Hord' & Hperm).
    eexists; split; [done|]. split; [done|].
    rewrite Hperm, Hperm1. by rewrite <-Permutation_middle.
Qed.

Lemma merge_loop_greedy heap :
  heap_ordered freq heap -> heap ≠ [] ->
  exists root, merge_loop heap = Some root /\ greedy_merge heap root.
Proof.
  remember (length heap) as m eqn:Hm. revert heap Hm.
  induction (lt_wf m) as [m _ IH]. intros heap -> Hord Hne.
  rewrite merge_loop_step.
  destruct (decide (1 < length heap)%nat) as [Hlen|Hlen].
  - destruct (heappop_ordered freq heap Hord Hne)
      as (l & heap1 & Hpop1 & Hord1 & Hp1 & Hl).
    change (key_lt freq) with Node_lt in Hpop1. rewrite Hpop1. simpl.
    assert (Hlen1 : length heap = S (length heap1)) by by rewrite Hp1.
    destruct (heappop_ordered freq heap1 Hord1)
      as (r & heap2 & Hpop2 & Hord2 & Hp2 & Hr).
    { intros ->. simpl in *. lia. }
    change (key_lt freq) with Node_lt in Hpop2. rewrite Hpop2. simpl.
    assert (Hlen2 : length heap1 = S (length heap2)) by by rewrite Hp2.
    destruct (heappush_ordered freq heap2
                (mkNode None (freq l + freq r) (Some l) (Some r)) Hord2)
      as (heap3 & Hpush & Hord3 & Hp3).
    change (key_lt freq) with Node_lt in Hpush. rewrite Hpush. simpl.
    assert (Hlen3 : length heap3 = S (length heap2)) by by rewrite Hp3.
    destruct (IH (length heap3) ltac:(lia) heap3 eq_refl Hord3)
      as (root & -> & Hg).
    { intros ->. simpl in *. lia. }
    exists root. split; [done|].
    apply (greedy_step heap l r heap2 heap3 root); try done.
    + by rewrite Hp1, Hp2.
    + intros x Hx. apply Hl. by rewrite Hp2.
  - destruct heap as [|root [|??]]; simpl in *; try done; try lia.
    exists root. split; [done|constructor].
Qed.

(** X16 (the tree is built greedily).  For a frequency table with at least
  two entries, [_build_huffman_tree] returns the result of the greedy
  construction on the leaves of the table: each step merges two nodes of
  least weight among those left. *)
Theorem huffman_tree_is_greedy (freq_table : list (byte * Z)) :
  (2 <= length freq_table)%nat ->
  exists root,
    _build_huffman_tree freq_table = Some (Some root)
    /\ greedy_merge (leaf_of <$> freq_table) root.
Proof.
  intros Hlen. unfold _build_huffman_tree.
  destruct freq_table as [|item items]; [simpl in Hlen; lia|].
  destruct (push_leaves_ordered (item :: items) [])
    as (heap & -> & Hord & Hperm).
  { intros j ?? _ Hj. done. }
  rewrite (right_id [] (++)) in Hperm. cbn [mbind option_bind].
  assert (Hl : length heap = length (item :: items)).
  { rewrite Hperm. by rewrite length_fmap. }
  rewrite decide_False by lia.
  destruct (merge_loop_greedy heap Hord) as (root & -> & Hg).
  { intros ->. simpl in *. lia. }
  exists root. split; [done|]. by apply (greedy_merge_Permutation heap).
Qed.

Lemma huffman_tree_is_greedy_witness :
  exists root,
    _build_huffman_tree [(x61, 4); (x62, 3); (x63, 1)] = Some (Some root)
    /\ greedy_merge (leaf_of <$> [(x61, 4); (x62, 3); (x63, 1)]) root.
Proof.
  apply (huffman_tree_is_greedy [(x61, 4); (x62, 3); (x63, 1)]).
  simpl. lia.
Defined.
